(** * The pyLoad addon manager: lifecycle dispatch, activation, RPC table
      and event bus

    A shallow embedding of [src/pyload/manager/addon_manager.py].  The
    manager object is a record of the core it serves and of its four
    mutable attributes; every method is a function in a small monad that
    threads the manager, can raise a Python exception, and records the
    calls the manager makes into foreign code (addon methods, listeners,
    the logger, the lock, thread creation) in a trace. *)

From Stdlib Require Import ZArith Ascii String List.
From stdpp Require Import base option list sorting gmap strings pretty fin_maps.

Local Open Scope string_scope.
Local Open Scope list_scope.

(** ** Python values, exceptions and results *)

(** The values that cross the manager's interface: hook arguments
    (pyfile, package and ip objects), RPC arguments and results, and the
    contents of an addon's [info] dict. *)
Inductive value : Type :=
| VNone
| VBool (b : bool)
| VInt (z : Z)
| VStr (s : string)
| VObj (id : nat).

#[global] Instance value_eq_dec : EqDecision value.
Proof. solve_decision. Defined.

(** Python truthiness, as used by [if value] and [and]. *)
Definition truthy (v : value) : bool :=
  match v with
  | VNone => false
  | VBool b => b
  | VInt z => negb (Z.eqb z 0)
  | VStr s => negb (String.eqb s "")
  | VObj _ => true
  end.

(** The subclasses of [Exception] the manager can meet. [Exception] stands
    for any other exception raised by an addon or a listener. *)
Inductive exn : Type :=
| KeyError (key : string)
| AttributeError (attr : string)
| TypeError (msg : string)
| ValueError (msg : string)
| Exception (msg : string).

Inductive result (A : Type) : Type :=
| Ok (a : A)
| Raise (e : exn).

Arguments Ok {A} a.
Arguments Raise {A} e.

(** ** Addons, plugin classes and the core *)

(** The fixed lifecycle hooks, as method names of an addon. *)
Module Hook.

Inductive t : Type :=
| coreReady
| coreExiting
| downloadPreparing
| downloadFinished
| downloadFailed
| packageFinished
| beforeReconnecting
| afterReconnecting.

#[global] Instance eq_dec : EqDecision t.
Proof. solve_decision. Defined.

Definition name (h : t) : string :=
  match h with
  | coreReady => "coreReady"
  | coreExiting => "coreExiting"
  | downloadPreparing => "downloadPreparing"
  | downloadFinished => "downloadFinished"
  | downloadFailed => "downloadFailed"
  | packageFinished => "packageFinished"
  | beforeReconnecting => "beforeReconnecting"
  | afterReconnecting => "afterReconnecting"
  end.

End Hook.

(** What [getattr(plugin, func)] can find on an addon instance. *)
Inductive Attr : Type :=
| Method (f : list value -> result value)
| Field (v : value).

(** An addon instance, through the attributes the manager reads.  [oid] is
    the identity of the Python object: [list.remove] and [in] compare
    instances with it.  Addon code is foreign: a method is given by what
    it returns or raises, and [isActivated] is the value that
    [isActivated()] returns. *)
Record Addon : Type := mkAddon {
  oid : nat;
  __name__ : string;
  isActivated : bool;
  __threaded__ : list string;
  info : gmap string value;
  cb : option nat;
  unload : result unit;
  method : Hook.t -> list value -> result unit;
  attrs : string -> option Attr
}.

(** A class returned by the plugin loader: its [__name__] and what calling
    it with [(self.pyload, self)] gives, the new instance or the exception
    of the constructor.  The calls that a constructor makes on the manager
    it is given ([addRPC], [addEvent]) are calls of their own, not part of
    [cls_new]: what is stated below about activation and about the building
    of the index concerns the plugins list and [pluginMap]. *)
Record PluginClass : Type := mkPluginClass {
  cls_name : string;
  cls_new : result Addon
}.

(** The part of [self.pyload] the manager uses: the plugin manager's
    [addonPlugins] and [loadClass], the configuration's [getPlugin] and the
    scheduler's [removeJob].  [loadClass_other] is [loadClass("addon", name)]
    for a [name] that is not a string, which the loader can be handed
    through [manageAddons]. *)
Record Core : Type := mkCore {
  addonPlugins : list string;
  getPlugin : string -> string -> result value;
  loadClass : string -> string -> result (option PluginClass);
  loadClass_other : value -> result (option PluginClass);
  removeJob : option nat -> bool
}.

(** ** Listeners, log records and the trace *)

(** A listener of the event bus: the manager's own bound method
    [self.manageAddons], or a foreign callable known by its identity. *)
Inductive Listener : Type :=
| BoundManageAddons
| External (id : nat).

#[global] Instance Listener_eq_dec : EqDecision Listener.
Proof. solve_decision. Defined.

Inductive Level : Type := Debug | Info | Warning | Error.

(** One constructor per logging call of the manager, carrying the values
    that the call formats into its message. *)
Inductive LogRecord : Type :=
| ErrorExecutingAddons (e : exn)
| FailedActivating (pluginname : string)
| ActivatedPlugins (names : list string)
| DeactivatePlugins (names : list string)
| PluginLoaded (plugin : string)
| PluginLoadedOther (plugin : value)
| PluginUnloaded (plugin : string)
| RemovedCallback (removed : bool)
| ErrorCallingHandler (event : string) (f : Listener) (args : list value) (e : exn).

(** What the manager does to the outside world, in order. *)
Inductive Event : Type :=
| Acquire
| Release
| Log (lvl : Level) (r : LogRecord)
| Invoke (plugin : Addon) (h : Hook.t) (args : list value)
| AddonThread (plugin : Addon) (h : Hook.t) (args : list value)
| StartNewThread (plugin : Addon) (h : Hook.t)
| Unload (plugin : Addon)
| CallAttr (plugin : Addon) (func : string) (args : list value)
| CallListener (f : Listener) (args : list value).

(** ** The manager and its monad *)

Record AddonManager : Type := mkAddonManager {
  pyload : Core;
  plugins : list Addon;
  pluginMap : gmap string Addon;
  methods : gmap string (gmap string string);
  events : gmap string (list Listener)
}.

Definition set_plugins (l : list Addon) (self : AddonManager) : AddonManager :=
  mkAddonManager (pyload self) l (pluginMap self) (methods self) (events self).

Definition set_pluginMap (m : gmap string Addon) (self : AddonManager) : AddonManager :=
  mkAddonManager (pyload self) (plugins self) m (methods self) (events self).

Definition set_methods (m : gmap string (gmap string string)) (self : AddonManager)
  : AddonManager :=
  mkAddonManager (pyload self) (plugins self) (pluginMap self) m (events self).

Definition set_events (m : gmap string (list Listener)) (self : AddonManager)
  : AddonManager :=
  mkAddonManager (pyload self) (plugins self) (pluginMap self) (methods self) m.

(** The outcome of running a method: what it returned or raised, the
    manager afterwards (mutations made before an exception stay), and the
    trace. *)
Record Run (A : Type) : Type := mkRun {
  out : result A;
  st : AddonManager;
  tr : list Event
}.

Arguments mkRun {A} out st tr.
Arguments out {A} r.
Arguments st {A} r.
Arguments tr {A} r.

Definition M (A : Type) : Type := AddonManager -> Run A.

Definition ret {A} (a : A) : M A := fun self => mkRun (Ok a) self [].

Definition raise {A} (e : exn) : M A := fun self => mkRun (Raise e) self [].

Definition bind {A B} (m : M A) (k : A -> M B) : M B :=
  fun self =>
    let r := m self in
    match out r with
    | Ok a => let r' := k a (st r) in mkRun (out r') (st r') (tr r ++ tr r')
    | Raise e => mkRun (Raise e) (st r) (tr r)
    end.

Notation "x <~ m ;; k" := (bind m (fun x => k))
  (at level 100, m at next level, right associativity).
Notation "m ;;; k" := (bind m (fun _ => k))
  (at level 100, right associativity).

Definition get : M AddonManager := fun self => mkRun (Ok self) self [].

Definition modify (f : AddonManager -> AddonManager) : M unit :=
  fun self => mkRun (Ok tt) (f self) [].

Definition emit (e : Event) : M unit := fun self => mkRun (Ok tt) self [e].

Definition lift {A} (r : result A) : M A := fun self => mkRun r self [].

Definition log (lvl : Level) (r : LogRecord) : M unit := emit (Log lvl r).

(** [try: m except Exception as e: handler(e)] *)
Definition try_except {A} (m : M A) (handler : exn -> M A) : M A :=
  fun self =>
    let r := m self in
    match out r with
    | Ok a => r
    | Raise e => let r' := handler e (st r) in mkRun (out r') (st r') (tr r ++ tr r')
    end.

(** [for x in l: body(x)] *)
Fixpoint for_each {A} (l : list A) (body : A -> M unit) : M unit :=
  match l with
  | [] => ret tt
  | x :: l' => body x ;;; for_each l' body
  end.

(** ** String helpers of the Python runtime

    A [string] holds the characters of a Python string one by one: the
    code points of a [str] of Python 3, each below 256, or the bytes of a
    [str] of Python 2. *)

(** [str.isspace] of Python 3 on one character.  Below 256 the white
    space characters are the code points 9 to 13, 28 to 32, 133 (next
    line) and 160 (no-break space). *)
Definition py_isspace (c : ascii) : bool :=
  let n := nat_of_ascii c in
  (Nat.leb 9 n && Nat.leb n 13) || (Nat.leb 28 n && Nat.leb n 32)
  || Nat.eqb n 133 || Nat.eqb n 160.

(** White space of a byte string of Python 2, as [str.strip] sees it: the
    bytes 9 to 13 and 32. *)
Definition bytes_isspace (c : ascii) : bool :=
  let n := nat_of_ascii c in
  (Nat.leb 9 n && Nat.leb n 13) || Nat.eqb n 32.

(** Dropping the leading characters that [isspace] accepts. *)
Fixpoint lstrip_of (isspace : ascii -> bool) (s : string) : string :=
  match s with
  | String c s' => if isspace c then lstrip_of isspace s' else s
  | EmptyString => EmptyString
  end.

Definition strip_of (isspace : ascii -> bool) (s : string) : string :=
  String.rev (lstrip_of isspace (String.rev (lstrip_of isspace s))).

(** [s.strip()] on a [str] of Python 3. *)
Definition strip (s : string) : string := strip_of py_isspace s.

(** [str.strip(s)] on a byte string of Python 2. *)
Definition bytes_strip (s : string) : string := strip_of bytes_isspace s.

Fixpoint contains_char (sep : ascii) (s : string) : bool :=
  match s with
  | String c s' => if decide (c = sep) then true else contains_char sep s'
  | EmptyString => false
  end.

(** [s.rpartition(sep)[2]]: what follows the last [sep], or all of [s]
    when it has none. *)
Fixpoint rpartition_tail (sep : ascii) (s : string) : string :=
  match s with
  | String c s' =>
      if contains_char sep s' then rpartition_tail sep s'
      else if decide (c = sep) then s' else s
  | EmptyString => EmptyString
  end.

(** [sorted(names)] on strings. *)
Definition sorted (names : list string) : list string :=
  merge_sort String.le names.

(** [x in l] for a list of strings. *)
Definition str_in (x : string) (l : list string) : bool :=
  bool_decide (x ∈ l).

(** [l.remove(x)]: drops the first element that [same] accepts; [None]
    stands for the [ValueError] of a missing element. *)
Fixpoint list_remove {A} (same : A -> bool) (l : list A) : option (list A) :=
  match l with
  | [] => None
  | y :: l' =>
      if same y then Some l'
      else match list_remove same l' with
           | Some r => Some (y :: r)
           | None => None
           end
  end.

(** Two references to the same addon object. *)
Definition same_addon (a b : Addon) : bool := Nat.eqb (oid a) (oid b).

(** [func in listeners] *)
Definition listener_in (func : Listener) (l : list Listener) : bool :=
  bool_decide (func ∈ l).

(** ** The methods of [AddonManager] *)

Section AddonManager.

(** [literal_eval], imported from [pyload.manager.plugin_manager]. *)
Variable literal_eval : value -> result value.

(** The builtin [str] on a value that is not a string. *)
Variable py_str : value -> string.

(** What calling the foreign listener [External id] with [args] gives. *)
Variable call_external : nat -> list value -> result unit.

(** *** RPC table *)

Definition addRPC (plugin func : string) (doc : option string) : M unit :=
  let plugin := rpartition_tail "."%char plugin in
  let doc := match doc with
             | Some d => if truthy (VStr d) then strip d else ""
             | None => ""
             end in
  self <~ get ;;
  match methods self !! plugin with
  | Some table => modify (set_methods (<[plugin := <[func := doc]> table]> (methods self)))
  | None => modify (set_methods (<[plugin := {[func := doc]}]> (methods self)))
  end.

(** [tuple(literal_eval(x) for x in args)] *)
Fixpoint eval_args (args : list value) : result (list value) :=
  match args with
  | [] => Ok []
  | x :: args' =>
      match literal_eval x with
      | Ok v => match eval_args args' with
                | Ok vs => Ok (v :: vs)
                | Raise e => Raise e
                end
      | Raise e => Raise e
      end
  end.

(** [getattr(plugin, func)] *)
Definition getattr (plugin : Addon) (func : string) : result Attr :=
  match attrs plugin func with
  | Some a => Ok a
  | None => Raise (AttributeError func)
  end.

(** Calling the attribute [f] with the unpacked [args]. *)
Definition call_attr (plugin : Addon) (func : string) (f : Attr) (args : list value)
  : M value :=
  match f with
  | Method body => emit (CallAttr plugin func args) ;;; lift (body args)
  | Field _ => raise (TypeError "object is not callable")
  end.

(** [args] is a sequence; [if not args: args = tuple()] leaves an empty one
    empty. *)
Definition callRPC (plugin func : string) (args : list value) (parse : bool) : M value :=
  args <~ (if parse then lift (eval_args args) else ret args) ;;
  self <~ get ;;
  match pluginMap self !! plugin with
  | None => raise (KeyError plugin)
  | Some plugin =>
      f <~ lift (getattr plugin func) ;;
      call_attr plugin func f args
  end.

(** *** Activation controller *)

Definition activateAddon (plugin : string) : M unit :=
  self <~ get ;;
  if existsb (fun inst => bool_decide (__name__ inst = plugin)) (plugins self)
  then ret tt
  else
    pluginClass <~ lift (loadClass (pyload self) "addon" plugin) ;;
    match pluginClass with
    | None => ret tt
    | Some pluginClass =>
        log Debug (PluginLoaded plugin) ;;;
        plugin <~ lift (cls_new pluginClass) ;;
        modify (fun self => set_plugins (plugins self ++ [plugin]) self) ;;;
        modify (fun self =>
                  set_pluginMap (<[cls_name pluginClass := plugin]> (pluginMap self)) self) ;;;
        emit (StartNewThread plugin Hook.coreReady)
    end.

(** The loop of [deactivateAddon]: the last instance with that name. *)
Definition find_addon (plugin : string) (l : list Addon) : option Addon :=
  foldl (fun addon inst => if bool_decide (__name__ inst = plugin) then Some inst else addon)
        None l.

Definition deactivateAddon (plugin : string) : M unit :=
  self <~ get ;;
  match find_addon plugin (plugins self) with
  | None => ret tt
  | Some addon =>
      log Debug (PluginUnloaded plugin) ;;;
      emit (Unload addon) ;;;
      lift (unload addon) ;;;
      log Debug (RemovedCallback (removeJob (pyload self) (cb addon))) ;;;
      self <~ get ;;
      match list_remove (same_addon addon) (plugins self) with
      | None => raise (ValueError "list.remove(x): x not in list")
      | Some rest =>
          modify (set_plugins rest) ;;;
          self <~ get ;;
          match pluginMap self !! __name__ addon with
          | None => raise (KeyError (__name__ addon))
          | Some _ => modify (set_pluginMap (delete (__name__ addon) (pluginMap self)))
          end
      end
  end.

Definition manageAddons (plugin : string) (name value : value) : M unit :=
  if bool_decide (name = VStr "activated") && truthy value then activateAddon plugin
  else if bool_decide (name = VStr "activated") && negb (truthy value)
       then deactivateAddon plugin
       else ret tt.

(** [activateAddon(plugin)] for a [plugin] that is not a string.  The name
    of no instance equals it, so the first loop finds nothing and the
    loader is asked. *)
Definition activateAddon_other (plugin : value) : M unit :=
  self <~ get ;;
  pluginClass <~ lift (loadClass_other (pyload self) plugin) ;;
  match pluginClass with
  | None => ret tt
  | Some pluginClass =>
      log Debug (PluginLoadedOther plugin) ;;;
      plugin <~ lift (cls_new pluginClass) ;;
      modify (fun self => set_plugins (plugins self ++ [plugin]) self) ;;;
      modify (fun self =>
                set_pluginMap (<[cls_name pluginClass := plugin]> (pluginMap self)) self) ;;;
      emit (StartNewThread plugin Hook.coreReady)
  end.

(** [manageAddons(plugin, name, value)] for a [plugin] that is not a
    string.  [deactivateAddon] finds no instance of that name and
    returns. *)
Definition manageAddons_other (plugin name value : value) : M unit :=
  if bool_decide (name = VStr "activated") && truthy value then activateAddon_other plugin
  else ret tt.

(** *** Event bus *)

Definition addEvent (event : string) (func : Listener) : M unit :=
  self <~ get ;;
  match events self !! event with
  | Some l =>
      if negb (listener_in func l)
      then modify (set_events (<[event := l ++ [func]]> (events self)))
      else ret tt
  | None => modify (set_events (<[event := [func]]> (events self)))
  end.

Definition removeEvent (event : string) (func : Listener) : M unit :=
  self <~ get ;;
  match events self !! event with
  | Some l =>
      if listener_in func l
      then match list_remove (fun g => bool_decide (g = func)) l with
           | Some rest => modify (set_events (<[event := rest]> (events self)))
           | None => raise (ValueError "list.remove(x): x not in list")
           end
      else ret tt
  | None => ret tt
  end.

(** What the listener [f] does when called with the unpacked [args].
    [manageAddons] takes three arguments, of which the configuration passes
    the plugin name as a string; another number of arguments is a
    [TypeError]. *)
Definition listener_body (f : Listener) (args : list value) : M unit :=
  match f with
  | BoundManageAddons =>
      match args with
      | [VStr plugin; name; value] => manageAddons plugin name value
      | [plugin; name; value] => manageAddons_other plugin name value
      | _ => raise (TypeError "manageAddons() takes 3 positional arguments")
      end
  | External id => lift (call_external id args)
  end.

(** Calling the listener [f] with the unpacked [args]. *)
Definition call_listener (f : Listener) (args : list value) : M unit :=
  emit (CallListener f args) ;;; listener_body f args.

Definition dispatchEvent (event : string) (args : list value) : M unit :=
  self <~ get ;;
  match events self !! event with
  | Some listeners =>
      for_each listeners (fun f =>
        try_except (call_listener f args)
                   (fun e => log Warning (ErrorCallingHandler event f args e)))
  | None => ret tt
  end.

(** *** Decorators *)

(** [@try_catch]: an exception of the decorated method is logged as an
    error and the call returns [None]. *)
Definition try_catch (func : M unit) : M unit :=
  try_except func (fun e => log Error (ErrorExecutingAddons e)).

(** Modelled from the spec: the [lock] decorator of [pyload.utils.utils],
    which is imported by the manager and is not among the sources.  The
    spec has the dispatch acquire the manager's reentrant lock for the whole
    call and release it afterwards: the decorated method runs between
    [Acquire] and [Release], and what it returns or raises passes
    through. *)
Definition lock {A} (func : M A) : M A :=
  fun self =>
    let r := func self in
    mkRun (out r) (st r) (Acquire :: tr r ++ [Release]).

(** *** Lifecycle dispatcher *)

(** [plugin.h(args)], inline. *)
Definition call_hook (plugin : Addon) (h : Hook.t) (args : list value) : M unit :=
  emit (Invoke plugin h args) ;;; lift (method plugin h args).

(** [self.startThread(plugin.h, args)]: an [AddonThread] is created for the
    bound method and the call returns at once. *)
Definition startThread (plugin : Addon) (h : Hook.t) (args : list value) : M unit :=
  emit (AddonThread plugin h args).

(** [for plugin in self.plugins: body(plugin)] *)
Definition for_plugins (body : Addon -> M unit) : M unit :=
  self <~ get ;;
  for_each (plugins self) body.

Definition coreReady : M unit :=
  try_catch
    (for_plugins (fun plugin =>
       if isActivated plugin then call_hook plugin Hook.coreReady [] else ret tt) ;;;
     dispatchEvent "coreReady" []).

Definition coreExiting : M unit :=
  try_catch
    (for_plugins (fun plugin =>
       if isActivated plugin then call_hook plugin Hook.coreExiting [] else ret tt) ;;;
     dispatchEvent "coreExiting" []).

Definition downloadPreparing (pyfile : value) : M unit :=
  lock
    (for_plugins (fun plugin =>
       if isActivated plugin then call_hook plugin Hook.downloadPreparing [pyfile]
       else ret tt) ;;;
     dispatchEvent "downloadPreparing" [pyfile]).

Definition downloadFinished (pyfile : value) : M unit :=
  lock
    (for_plugins (fun plugin =>
       if isActivated plugin then
         if str_in "downloadFinished" (__threaded__ plugin)
         then startThread plugin Hook.downloadFinished [pyfile]
         else call_hook plugin Hook.downloadFinished [pyfile]
       else ret tt) ;;;
     dispatchEvent "downloadFinished" [pyfile]).

Definition downloadFailed (pyfile : value) : M unit :=
  lock (try_catch
    (for_plugins (fun plugin =>
       if isActivated plugin then
         if str_in "downloadFailed" (__threaded__ plugin)
         then startThread plugin Hook.downloadFinished [pyfile]
         else call_hook plugin Hook.downloadFailed [pyfile]
       else ret tt) ;;;
     dispatchEvent "downloadFailed" [pyfile])).

Definition packageFinished (package : value) : M unit :=
  lock
    (for_plugins (fun plugin =>
       if isActivated plugin then
         if str_in "packageFinished" (__threaded__ plugin)
         then startThread plugin Hook.packageFinished [package]
         else call_hook plugin Hook.packageFinished [package]
       else ret tt) ;;;
     dispatchEvent "packageFinished" [package]).

Definition beforeReconnecting (ip : value) : M unit :=
  lock
    (for_plugins (fun plugin => call_hook plugin Hook.beforeReconnecting [ip]) ;;;
     dispatchEvent "beforeReconnecting" [ip]).

Definition afterReconnecting (ip : value) : M unit :=
  lock
    (for_plugins (fun plugin =>
       if isActivated plugin then call_hook plugin Hook.afterReconnecting [ip]
       else ret tt) ;;;
     dispatchEvent "afterReconnecting" [ip]).

(** The dispatcher method named after a hook; [coreReady] and
    [coreExiting] take no argument. *)
Definition dispatcher (h : Hook.t) (arg : value) : M unit :=
  match h with
  | Hook.coreReady => coreReady
  | Hook.coreExiting => coreExiting
  | Hook.downloadPreparing => downloadPreparing arg
  | Hook.downloadFinished => downloadFinished arg
  | Hook.downloadFailed => downloadFailed arg
  | Hook.packageFinished => packageFinished arg
  | Hook.beforeReconnecting => beforeReconnecting arg
  | Hook.afterReconnecting => afterReconnecting arg
  end.

(** *** Queries *)

Definition activePlugins (self : AddonManager) : list Addon :=
  filter (fun x => isActivated x = true) (plugins self).

(** [str(y) if not isinstance(y, str) else y] *)
Definition info_str (y : value) : string :=
  match y with
  | VStr s => s
  | _ => py_str y
  end.

Definition getAllInfo (self : AddonManager) : gmap string (gmap string string) :=
  omap (fun plugin =>
          if bool_decide (info plugin = ∅) then None
          else Some (info_str <$> info plugin))
       (pluginMap self).

Definition getInfo (plugin : string) (self : AddonManager) : gmap string string :=
  match pluginMap self !! plugin with
  | Some p => if bool_decide (info p = ∅) then ∅ else info_str <$> info p
  | None => ∅
  end.

(** *** Building the index *)

(** The local lists of [createIndex]. *)
Record IndexLocals : Type := mkLocals {
  l_plugins : list Addon;
  l_active : list string;
  l_deactive : list string
}.

(** The body of the [try] of one iteration; the loader's [None] is the
    [continue]. *)
Definition createIndex_body (pluginname : string) (loc : IndexLocals) : M IndexLocals :=
  self <~ get ;;
  activated <~ lift (getPlugin (pyload self) pluginname "activated") ;;
  if truthy activated then
    pluginClass <~ lift (loadClass (pyload self) "addon" pluginname) ;;
    match pluginClass with
    | None => ret loc
    | Some pluginClass =>
        plugin <~ lift (cls_new pluginClass) ;;
        modify (fun self =>
                  set_pluginMap (<[cls_name pluginClass := plugin]> (pluginMap self)) self) ;;;
        ret (mkLocals (l_plugins loc ++ [plugin])
                      (if isActivated plugin
                       then l_active loc ++ [cls_name pluginClass]
                       else l_active loc)
                      (l_deactive loc))
    end
  else ret (mkLocals (l_plugins loc) (l_active loc) (l_deactive loc ++ [pluginname])).

Fixpoint createIndex_loop (names : list string) (loc : IndexLocals) : M IndexLocals :=
  match names with
  | [] => ret loc
  | pluginname :: names' =>
      loc' <~ try_except (createIndex_body pluginname loc)
                         (fun _ => log Warning (FailedActivating pluginname) ;;; ret loc) ;;
      createIndex_loop names' loc'
  end.

Definition createIndex : M unit :=
  self <~ get ;;
  loc <~ createIndex_loop (addonPlugins (pyload self)) (mkLocals [] [] []) ;;
  log Info (ActivatedPlugins (sorted (l_active loc))) ;;;
  log Info (DeactivatePlugins (sorted (l_deactive loc))) ;;;
  modify (set_plugins (l_plugins loc)).

(** [AddonManager(core)] *)
Definition __init__ (core : Core) : Run unit :=
  (addEvent "pluginConfigChanged" BoundManageAddons ;;; createIndex)
    (mkAddonManager core [] ∅ ∅ ∅).

End AddonManager.

(** ** Vocabulary of the statements *)

(** Every event a method records satisfies [P], from any manager. *)
Definition trace_all {A} (P : Event -> Prop) (m : M A) : Prop :=
  forall self, Forall P (tr (m self)).

(** Taking or releasing the manager's lock. *)
Definition lock_event (e : Event) : Prop := e = Acquire \/ e = Release.


(** What the activation controller records: log records, the thread
    started for [coreReady] and the teardown call. *)
Definition controller_event (e : Event) : Prop :=
  match e with
  | Log _ _ | StartNewThread _ _ | Unload _ => True
  | _ => False
  end.

(** What the event bus records: listener calls and what the controller
    records when [manageAddons] is the listener. *)
Definition bus_event (e : Event) : Prop :=
  match e with
  | CallListener _ _ => True
  | _ => controller_event e
  end.

(** An inline call or a thread submission on an addon of [l], and nothing
    else. *)
Definition hook_event_of (l : list Addon) (e : Event) : Prop :=
  match e with
  | Invoke p _ _ | AddonThread p _ _ => In p l
  | _ => False
  end.

(** The listener calls of a trace, in order. *)
Definition listener_calls (t : list Event) : list (Listener * list value) :=
  omap (fun e => match e with
                 | CallListener f args => Some (f, args)
                 | _ => None
                 end) t.

(** How often a trace calls the listener [f]. *)
Definition count_calls (f : Listener) (t : list Event) : nat :=
  length (List.filter (fun c => bool_decide (fst c = f)) (listener_calls t)).

(** Every listener list of the bus is free of duplicates. *)
Definition events_nodup (self : AddonManager) : Prop :=
  forall event l, events self !! event = Some l -> NoDup l.

(** The names held by the index. *)
Definition index_names (self : AddonManager) : list string :=
  map __name__ (plugins self).

(** The configuration marks [pluginname] active, the loader resolves it to
    the class [cls] and the class gives the instance [p]. *)
Definition instantiated (core : Core) (pluginname : string) (cls : PluginClass)
  (p : Addon) : Prop :=
  (exists v, getPlugin core pluginname "activated" = Ok v /\ truthy v = true) /\
  loadClass core "addon" pluginname = Ok (Some cls) /\
  cls_new cls = Ok p.

(** Calls of [deactivateAddon] issued one after the other; an exception
    ends the call that raised it, not the sequence. *)
Definition deactivate_all (names : list string) (self : AddonManager) : AddonManager :=
  foldl (fun s name => st (deactivateAddon name s)) self names.

(** The index is well formed: its objects and its names are distinct, and
    [pluginMap] files exactly the instances of the plugins list under
    their names. *)
Definition index_ok (self : AddonManager) : Prop :=
  NoDup (map oid (plugins self)) /\
  NoDup (index_names self) /\
  (forall name p,
      pluginMap self !! name = Some p <-> In p (plugins self) /\ __name__ p = name).

(** The loader answers the request for [plugin] coherently: the class it
    returns carries that name, and so does the instance, which is a new
    object. *)
Definition loads_coherently (self : AddonManager) (plugin : string) : Prop :=
  forall cls p,
    loadClass (pyload self) "addon" plugin = Ok (Some cls) ->
    cls_new cls = Ok p ->
    cls_name cls = plugin /\ __name__ p = plugin /\ ~ In (oid p) (map oid (plugins self)).




(** The manager in which [dispatchEvent event args], started on [self],
    calls the listener registered after the listeners [before]: these have
    been called, each under the guard of [dispatchEvent]. *)
Definition reached_by (call_external : nat -> list value -> result unit)
  (event : string) (args : list value) (before : list Listener) (self : AddonManager)
  : AddonManager :=
  st (for_each before
        (fun f => try_except (call_listener call_external f args)
                    (fun e => log Warning (ErrorCallingHandler event f args e)))
        self).

(** Whether the dispatcher of [h] hands the hook of [p] to a thread:
    [downloadFinished] and [packageFinished] do so for a plugin that lists
    the hook in [__threaded__]; the dispatchers of [downloadPreparing] and
    [afterReconnecting] never do. *)
Definition submits (h : Hook.t) (p : Addon) : bool :=
  match h with
  | Hook.downloadFinished | Hook.packageFinished => str_in (Hook.name h) (__threaded__ p)
  | _ => false
  end.

(** * The port forwarder: [forward]

    [src/pyload/utils/old/lib/forwarder.py].  A socket is given by what
    its calls do: the source by the outcomes of its successive [recv]
    calls, the destination by what [sendall] and [shutdown] return or
    raise.  A source whose script is used up has nothing to deliver and is
    not closed: [recv] blocks. *)

Module Forwarder.

Inductive SockEvent : Type :=
| SendAll (data : string)
| ShutdownWR.

(** How a call of [forward] ends. *)
Inductive Outcome : Type :=
| Returned
| Raised (e : exn)
| Blocked.

Record Destination : Type := mkDestination {
  sendall : nat -> string -> result unit;
  shutdown : result unit
}.

(** The loop of [forward], [sent] being the number of [sendall] calls made
    so far.  An empty string from [recv] is the end of the stream. *)
Fixpoint forward_loop (sent : nat) (source : list (result string))
  (destination : Destination) : Outcome * list SockEvent :=
  match source with
  | [] => (Blocked, [])
  | Raise e :: _ => (Raised e, [])
  | Ok string :: rest =>
      if truthy (VStr string) then
        match sendall destination sent string with
        | Ok _ =>
            let (o, t) := forward_loop (S sent) rest destination in
            (o, SendAll string :: t)
        | Raise e => (Raised e, [SendAll string])
        end
      else
        match shutdown destination with
        | Ok _ => (Returned, [ShutdownWR])
        | Raise e => (Raised e, [ShutdownWR])
        end
  end.

Definition forward (source : list (result string)) (destination : Destination)
  : Outcome * list SockEvent :=
  forward_loop 0 source destination.

(** A destination that accepts everything. *)
Definition accepting : Destination := mkDestination (fun _ _ => Ok tt) (Ok tt).

End Forwarder.

(** * The antivirus addon: [scan], [downloadFinished], [downloadFailed]

    [src/pyload/plugin/addon/AntiVirus.py], a Python 2 module: its strings
    are byte strings, and [strip] is the [str.strip] of Python 2
    ([bytes_strip]).  The body of [scan] is embedded as written; the
    decorators [Expose] and [threaded] of [pyload.plugin.Addon], which are
    not among the sources, hand that body to a thread which supplies
    [thread]. *)

Module AntiVirus.

(** The exceptions the body can meet.  In Python 2 [IOError] and
    [OSError] are different classes. *)
Inductive os_exn : Type :=
| IOError (msg : string)
| OSError (msg : string)
| ShutilError (msg : string)
| OtherError (msg : string).

Inductive outcome (A : Type) : Type :=
| Done (a : A)
| Fail (e : os_exn).

Arguments Done {A} a.
Arguments Fail {A} e.

(** What [scan] reads: the pyfile, the configuration of the addon, and the
    operating system ([os.path.isfile], the scanner process with its raw
    output, error output and return code, [os.remove], [shutil.move]).
    [fs_encode] is imported from [pyload.utils]. *)
Record Env : Type := mkEnv {
  lastDownload : string;
  status : Z;
  cmdfile_cfg : string;
  cmdargs_cfg : string;
  ignore_err : bool;
  scanfailed : bool;
  action_cfg : string;
  quardir : string;
  fs_encode : string -> string;
  basename : string -> string;
  isfile : string -> bool;
  communicate : list string -> outcome (string * string * Z);
  remove : string -> outcome unit;
  move : string -> string -> outcome unit
}.

Inductive AvEvent : Type :=
| AddActive
| FinishFile
| SetCustomStatus (s : string)
| SetProgress (n : Z)
| SetError (s : string)
| Popen (argv : list string)
| LogInfo (filename out : string)
| LogWarning (filename err : string)
| LogDebug (msgs : list string)
| LogError (filename msg : string) (e : os_exn)
| Remove (file : string)
| Move (file dest : string).

(** [except (IOError, shutil.Error), e] *)
Definition caught (e : os_exn) : bool :=
  match e with
  | IOError _ | ShutilError _ => true
  | _ => false
  end.

(** The inner [try] of [scan]: the action on an infected file. *)
Definition act (env : Env) (file filename : string) : outcome unit * list AvEvent :=
  let action := action_cfg env in
  let guarded (r : outcome unit) (t : list AvEvent) :=
    match r with
    | Done _ => (Done tt, t)
    | Fail e =>
        if caught e
        then (Done tt, t ++ [LogError filename (String.append action " action failed!") e])
        else (Fail e, t)
    end in
  if bool_decide (action = "Delete") then
    guarded (remove env file) [Remove file]
  else if bool_decide (action = "Quarantine") then
    guarded (move env file (quardir env))
            [SetCustomStatus "file moving"; SetProgress 0; Move file (quardir env)]
  else (Done tt, []).

(** The outer [try] of [scan], without its [finally]. *)
Definition examine (env : Env) (file filename cmdfile cmdargs : string)
  : outcome unit * list AvEvent :=
  match communicate env [cmdfile; cmdargs; file] with
  | Fail e => (Fail e, [Popen [cmdfile; cmdargs; file]])
  | Done (out, err, returncode) =>
      let out := bytes_strip out in
      let err := bytes_strip err in
      let t := Popen [cmdfile; cmdargs; file]
               :: (if truthy (VStr out) then [LogInfo filename out] else [])
               ++ (if truthy (VStr err) then [LogWarning filename err] else []) in
      if truthy (VStr err) && negb (ignore_err env) then
        (Done tt, t ++ [LogDebug ["Delete/Quarantine task is aborted"]])
      else if negb (Z.eqb returncode 0) then
        let (r, t') := act env file filename in
        (r, t ++ SetError "infected file" :: t')
      else if negb (truthy (VStr out)) && negb (truthy (VStr err)) then
        (Done tt, t ++ [LogDebug [filename; "No infected file found"]])
      else (Done tt, t)
  end.

Definition scan (env : Env) : outcome unit * list AvEvent :=
  let file := fs_encode env (lastDownload env) in
  let filename := basename env (lastDownload env) in
  let cmdfile := fs_encode env (cmdfile_cfg env) in
  let cmdargs := fs_encode env (bytes_strip (cmdargs_cfg env)) in
  if negb (isfile env file) || negb (isfile env cmdfile) then (Done tt, [])
  else
    let (r, t) := examine env file filename cmdfile cmdargs in
    (r, [AddActive; SetCustomStatus "virus scanning"] ++ t
        ++ [SetProgress 100; FinishFile]).

Definition downloadFinished (env : Env) : outcome unit * list AvEvent := scan env.

Definition downloadFailed (env : Env) : outcome unit * list AvEvent :=
  if Z.eqb (status env) 8 && scanfailed env then scan env else (Done tt, []).

(** [os.path.basename] on a POSIX host: what follows the last slash. *)
Definition posix_basename (path : string) : string := rpartition_tail "/"%char path.

(** A POSIX host on which every file exists and the scanner reports an
    infected file on its standard output, with the action set to
    ["Delete"]. *)
Definition infected : Env :=
  mkEnv "/downloads/a.bin" 0 "/usr/bin/scanner" " -q " false false "Delete" "/quarantine"
        (fun s => s) posix_basename (fun _ => true)
        (fun _ => Done ("FOUND", "", 1%Z)) (fun _ => Done tt) (fun _ _ => Done tt).

(** The same host, on which the infected file cannot be removed. *)
Definition locked : Env :=
  mkEnv "/downloads/a.bin" 8 "/usr/bin/scanner" " -q " false true "Delete" "/quarantine"
        (fun s => s) posix_basename (fun _ => true)
        (fun _ => Done ("FOUND", "", 1%Z)) (fun _ => Fail (IOError "busy"))
        (fun _ _ => Done tt).

(** The host of [infected] with a scanner that writes the byte 28 (file
    separator), which is no white space for [str.strip], to its error
    output. *)
Definition noisy : Env :=
  mkEnv "/downloads/a.bin" 0 "/usr/bin/scanner" " -q " false false "Delete" "/quarantine"
        (fun s => s) posix_basename (fun _ => true)
        (fun _ => Done ("FOUND", String (ascii_of_nat 28) "", 1%Z))
        (fun _ => Done tt) (fun _ _ => Done tt).

End AntiVirus.

(** ** Concrete addons, cores and managers

    Small instances of the foreign parts, used to run the methods. *)

Module Scenario.

(** A literal parser for decimal integers and the three constant names. *)
Definition digit_value (c : ascii) : option Z :=
  match Ascii.is_nat c with
  | Some n => Some (Z.of_nat n)
  | None => None
  end.

Fixpoint parse_digits (acc : Z) (s : string) : option Z :=
  match s with
  | EmptyString => Some acc
  | String c s' =>
      match digit_value c with
      | Some d => parse_digits (10 * acc + d) s'
      | None => None
      end
  end.

Definition literal_eval (x : value) : result value :=
  match x with
  | VStr "None" => Ok VNone
  | VStr "True" => Ok (VBool true)
  | VStr "False" => Ok (VBool false)
  | VStr EmptyString => Raise (ValueError "malformed node or string")
  | VStr s =>
      match parse_digits 0 s with
      | Some z => Ok (VInt z)
      | None => Raise (ValueError "malformed node or string")
      end
  | _ => Raise (ValueError "malformed node or string")
  end.

Definition py_str (v : value) : string :=
  match v with
  | VNone => "None"
  | VBool true => "True"
  | VBool false => "False"
  | VInt z => pretty z
  | VStr s => s
  | VObj _ => "<object>"
  end.

(** The listener [External 1] raises; every other foreign listener
    returns. *)
Definition call_external (id : nat) (args : list value) : result unit :=
  match id with
  | 1 => Raise (Exception "listener failed")
  | _ => Ok tt
  end.

Definition pyfile : value := VObj 7.

Definition no_attrs (func : string) : option Attr := None.

Definition returns (h : Hook.t) (args : list value) : result unit := Ok tt.

Definition raises (h : Hook.t) (args : list value) : result unit :=
  Raise (Exception "hook failed").

(** [bar(self, a, b)] returning [a + b]. *)
Definition bar (args : list value) : result value :=
  match args with
  | [VInt a; VInt b] => Ok (VInt (a + b))
  | _ => Raise (TypeError "bar() takes 2 positional arguments")
  end.

Definition Foo_attrs (func : string) : option Attr :=
  if decide (func = "bar") then Some (Method bar) else None.

(** An activated addon exposing [bar], with [downloadFailed] threaded. *)
Definition Foo : Addon :=
  mkAddon 1 "Foo" true ["downloadFailed"] ∅ None (Ok tt) returns Foo_attrs.

(** An addon whose teardown raises. *)
Definition X : Addon :=
  mkAddon 2 "X" true [] ∅ None (Raise (Exception "teardown failed")) returns no_attrs.

(** An activated addon whose hooks raise, and a well-behaved one. *)
Definition Bad : Addon :=
  mkAddon 3 "Bad" true [] ∅ None (Ok tt) raises no_attrs.

Definition Good : Addon :=
  mkAddon 4 "Good" true [] ∅ None (Ok tt) returns no_attrs.

(** An addon configured active whose [isActivated()] is false. *)
Definition Sleepy : Addon :=
  mkAddon 5 "Sleepy" false [] {[ "state" := VInt 3 ]} None (Ok tt) returns no_attrs.

Definition classes (category pluginname : string) : result (option PluginClass) :=
  if decide (pluginname = "Foo") then Ok (Some (mkPluginClass "Foo" (Ok Foo)))
  else if decide (pluginname = "X") then Ok (Some (mkPluginClass "X" (Ok X)))
  else if decide (pluginname = "Sleepy") then Ok (Some (mkPluginClass "Sleepy" (Ok Sleepy)))
  else Ok None.

Definition config (pluginname option : string) : result value :=
  if decide (pluginname = "Sleepy") then Ok (VBool true) else Ok (VBool false).

Definition core : Core :=
  mkCore ["Foo"; "Sleepy"] config classes (fun _ => Ok None) (fun _ => false).

(** A manager holding the given instances under their names. *)
Definition manager_of (l : list Addon) : AddonManager :=
  mkAddonManager core l (list_to_map (map (fun p => (__name__ p, p)) l)) ∅ ∅.




End Scenario.

(** * Properties *)

(** ** The monad: traces, outcomes and loops *)

Lemma bind_ok {A B} (m : M A) (k : A -> M B) self a :
  out (m self) = Ok a ->
  bind m k self =
  mkRun (out (k a (st (m self)))) (st (k a (st (m self))))
        (tr (m self) ++ tr (k a (st (m self)))).
Proof. intros H. unfold bind. rewrite H. reflexivity. Qed.

Lemma bind_raise {A B} (m : M A) (k : A -> M B) self e :
  out (m self) = Raise e ->
  bind m k self = mkRun (Raise e) (st (m self)) (tr (m self)).
Proof. intros H. unfold bind. rewrite H. reflexivity. Qed.

Lemma trace_all_ret {A} P (a : A) : trace_all P (ret a).
Proof. intros self. constructor. Qed.

Lemma trace_all_raise {A} P e : trace_all P (@raise A e).
Proof. intros self. constructor. Qed.

Lemma trace_all_lift {A} P (r : result A) : trace_all P (lift r).
Proof. intros self. constructor. Qed.

Lemma trace_all_modify P f : trace_all P (modify f).
Proof. intros self. constructor. Qed.

Lemma trace_all_emit (P : Event -> Prop) e : P e -> trace_all P (emit e).
Proof. intros H self. simpl. repeat constructor. exact H. Qed.

Lemma trace_all_log (P : Event -> Prop) lvl r : P (Log lvl r) -> trace_all P (log lvl r).
Proof. apply trace_all_emit. Qed.

Lemma trace_all_bind {A B} P (m : M A) (k : A -> M B) :
  trace_all P m -> (forall a, trace_all P (k a)) -> trace_all P (bind m k).
Proof.
  intros Hm Hk self. unfold bind.
  destruct (out (m self)) as [a|e]; simpl.
  - apply Forall_app. split; [apply Hm | apply Hk].
  - apply Hm.
Qed.

Lemma trace_all_get_bind {B} P (k : AddonManager -> M B) :
  (forall s, trace_all P (k s)) -> trace_all P (bind get k).
Proof. intros Hk self. unfold bind, get. simpl. apply Hk. Qed.

Lemma trace_all_try_except {A} P (m : M A) handler :
  trace_all P m -> (forall e, trace_all P (handler e)) -> trace_all P (try_except m handler).
Proof.
  intros Hm Hh self. unfold try_except.
  destruct (out (m self)) as [a|e]; simpl.
  - apply Hm.
  - apply Forall_app. split; [apply Hm | apply Hh].
Qed.

Lemma trace_all_for_each {A} P (l : list A) body :
  (forall x, In x l -> trace_all P (body x)) -> trace_all P (for_each l body).
Proof.
  induction l as [|x l IH]; intros Hb; simpl.
  - apply trace_all_ret.
  - apply trace_all_bind.
    + apply Hb. now left.
    + intros _. apply IH. intros y Hy. apply Hb. now right.
Qed.

Lemma trace_all_lock {A} (P : Event -> Prop) (m : M A) :
  P Acquire -> P Release -> trace_all P m -> trace_all P (lock m).
Proof.
  intros Ha Hr Hm self. unfold lock. simpl.
  constructor; [exact Ha|]. apply Forall_app. split; [apply Hm|].
  repeat constructor. exact Hr.
Qed.

Lemma trace_all_impl {A} (P Q : Event -> Prop) (m : M A) :
  (forall e, P e -> Q e) -> trace_all P m -> trace_all Q m.
Proof.
  intros HPQ Hm self. eapply Forall_impl; [apply Hm | exact HPQ].
Qed.

(** A loop whose bodies return and leave the manager alone runs to its
    end. *)
Lemma for_each_returns {A} (l : list A) body self :
  (forall x s, In x l -> out (body x s) = Ok tt /\ st (body x s) = s) ->
  out (for_each l body self) = Ok tt /\ st (for_each l body self) = self.
Proof.
  revert self. induction l as [|x l IH]; intros self Hb; simpl.
  - split; reflexivity.
  - destruct (Hb x self (or_introl eq_refl)) as [Ho Hs].
    rewrite (bind_ok _ _ _ tt Ho). simpl. rewrite Hs.
    apply IH. intros y s Hy. apply Hb. now right.
Qed.

(** The loop reaches the element after a prefix of returning bodies. *)
Lemma for_each_prefix {A} (l1 : list A) x l2 body self :
  (forall q s, In q l1 -> out (body q s) = Ok tt /\ st (body q s) = s) ->
  for_each (l1 ++ x :: l2) body self =
  mkRun (out ((body x ;;; for_each l2 body) self))
        (st ((body x ;;; for_each l2 body) self))
        (tr (for_each l1 body self) ++ tr ((body x ;;; for_each l2 body) self)).
Proof.
  revert self. induction l1 as [|q l1 IH]; intros self Hb.
  - simpl. destruct (bind (body x) _ self). reflexivity.
  - change ((q :: l1) ++ x :: l2) with (q :: (l1 ++ x :: l2)).
    destruct (Hb q self (or_introl eq_refl)) as [Ho Hs].
    cbn [for_each]. rewrite !(bind_ok _ _ _ tt Ho). rewrite Hs.
    rewrite IH by (intros y s Hy; apply Hb; now right).
    cbn [out st tr]. rewrite app_assoc. reflexivity.
Qed.

(** The first raising body ends the loop: the exception leaves it and no
    later body runs. *)
Lemma for_each_aborts {A} (l1 : list A) x l2 body self e :
  (forall q s, In q l1 -> out (body q s) = Ok tt /\ st (body q s) = s) ->
  out (body x self) = Raise e ->
  for_each (l1 ++ x :: l2) body self =
  mkRun (Raise e) (st (body x self)) (tr (for_each l1 body self) ++ tr (body x self)).
Proof.
  intros Hb Hx. rewrite for_each_prefix by exact Hb.
  rewrite (bind_raise _ _ _ e Hx). reflexivity.
Qed.


(** One step of a trace argument: the combinator at the head of the
    method decides the lemma. *)
Ltac trace_step :=
  lazymatch goal with
  | |- trace_all _ (ret _) => apply trace_all_ret
  | |- trace_all _ (raise _) => apply trace_all_raise
  | |- trace_all _ (lift _) => apply trace_all_lift
  | |- trace_all _ (modify _) => apply trace_all_modify
  | |- trace_all _ (log _ _) => apply trace_all_log; simpl; auto
  | |- trace_all _ (emit _) => apply trace_all_emit; simpl; auto
  | |- trace_all _ (bind get _) => apply trace_all_get_bind; intros ?
  | |- trace_all _ (bind _ _) => apply trace_all_bind; [|intros ?]
  | |- trace_all _ (try_except _ _) => apply trace_all_try_except; [|intros ?]
  | |- trace_all _ (match ?x with _ => _ end) => destruct x eqn:?
  end.

Ltac trace_solve := repeat trace_step.

Section Properties.

Variable literal_eval : value -> result value.
Variable py_str : value -> string.
Variable call_external : nat -> list value -> result unit.

(** ** What the controller and the bus record *)

Lemma activateAddon_trace plugin : trace_all controller_event (activateAddon plugin).
Proof. unfold activateAddon. trace_solve. Qed.

Lemma deactivateAddon_trace plugin : trace_all controller_event (deactivateAddon plugin).
Proof. unfold deactivateAddon. trace_solve. Qed.

Lemma manageAddons_trace plugin name value :
  trace_all controller_event (manageAddons plugin name value).
Proof.
  unfold manageAddons.
  destruct (_ && truthy value); [apply activateAddon_trace|].
  destruct (_ && negb _); [apply deactivateAddon_trace|].
  apply trace_all_ret.
Qed.

Lemma manageAddons_other_trace plugin name value :
  trace_all controller_event (manageAddons_other plugin name value).
Proof.
  unfold manageAddons_other.
  destruct (_ && truthy value); [|apply trace_all_ret].
  unfold activateAddon_other. trace_solve.
Qed.

Lemma listener_body_trace f args :
  trace_all controller_event (listener_body call_external f args).
Proof.
  destruct f as [|id]; [|apply trace_all_lift].
  destruct args as [|[| | |plugin|] [|name [|value [|? ?]]]];
    try apply trace_all_raise;
    first [apply manageAddons_trace | apply manageAddons_other_trace].
Qed.

Lemma controller_bus e : controller_event e -> bus_event e.
Proof. destruct e; simpl; tauto. Qed.

Lemma call_listener_trace f args :
  trace_all bus_event (call_listener call_external f args).
Proof.
  unfold call_listener. apply trace_all_bind; [apply trace_all_emit; exact I|].
  intros _. eapply trace_all_impl; [exact controller_bus|].
  apply (listener_body_trace f args).
Qed.

Lemma dispatchEvent_trace event args :
  trace_all bus_event (dispatchEvent call_external event args).
Proof.
  unfold dispatchEvent. trace_step. trace_step; [|trace_step].
  apply trace_all_for_each. intros f _.
  trace_step; [apply call_listener_trace | trace_step].
Qed.

Lemma bus_not_lock e : bus_event e -> ~ lock_event e.
Proof. destruct e; simpl; intros H [?|?]; try discriminate; exact H. Qed.


(** ** The lifecycle dispatcher *)

Lemma bind_trace_prefix {A B} (m : M A) (k : A -> M B) self ev :
  In ev (tr (m self)) -> In ev (tr (bind m k self)).
Proof.
  intros H. unfold bind. destruct (out (m self)); cbn [tr]; [|exact H].
  apply in_or_app. now left.
Qed.

Lemma call_hook_run plugin h args self :
  call_hook plugin h args self = mkRun (method plugin h args) self [Invoke plugin h args].
Proof.
  unfold call_hook, bind, emit, lift. simpl. destruct (method plugin h args); reflexivity.
Qed.

Lemma for_plugins_run body self :
  for_plugins body self = for_each (plugins self) body self.
Proof.
  unfold for_plugins, bind, get. simpl. destruct (for_each _ _ _). reflexivity.
Qed.

Lemma trace_all_for_plugins P body :
  (forall p, trace_all P (body p)) -> trace_all P (for_plugins body).
Proof.
  intros Hb. unfold for_plugins. apply trace_all_get_bind. intros s.
  apply trace_all_for_each. intros p _. apply Hb.
Qed.

(** The shape shared by the dispatcher methods: the loop over the index,
    then the event of the same name. *)
Lemma hook_loop_trace (P : Event -> Prop) body event args :
  (forall p, trace_all P (body p)) ->
  (forall e, bus_event e -> P e) ->
  trace_all P (for_plugins body ;;; dispatchEvent call_external event args).
Proof.
  intros Hb HP. apply trace_all_bind.
  - apply trace_all_for_plugins, Hb.
  - intros _. eapply trace_all_impl; [exact HP | apply dispatchEvent_trace].
Qed.

Lemma trace_all_call_hook (P : Event -> Prop) plugin h args :
  P (Invoke plugin h args) -> trace_all P (call_hook plugin h args).
Proof. intros H self. rewrite call_hook_run. simpl. repeat constructor. exact H. Qed.

Lemma trace_all_startThread (P : Event -> Prop) plugin h args :
  P (AddonThread plugin h args) -> trace_all P (startThread plugin h args).
Proof. apply trace_all_emit. Qed.

Lemma trace_all_try_catch P m :
  (forall e, P (Log Error (ErrorExecutingAddons e))) ->
  trace_all P m -> trace_all P (try_catch m).
Proof.
  intros HP Hm. unfold try_catch. apply trace_all_try_except; [exact Hm|].
  intros e. apply trace_all_log, HP.
Qed.


(** [downloadFailed] only ever submits the [downloadFinished] method to a
    thread. *)
Lemma downloadFailed_threads_only_downloadFinished pyfile :
  trace_all (fun e => match e with
                      | AddonThread _ h _ => h = Hook.downloadFinished
                      | _ => True
                      end)
            (downloadFailed call_external pyfile).
Proof.
  unfold downloadFailed.
  apply trace_all_lock; [exact I | exact I |].
  apply trace_all_try_catch; [intros ?; exact I |].
  apply hook_loop_trace.
  - intros p. destruct (isActivated p); [|apply trace_all_ret].
    destruct (str_in _ _).
    + apply trace_all_startThread. reflexivity.
    + apply trace_all_call_hook. exact I.
  - intros e. destruct e; simpl; tauto.
Qed.

(** A lock-decorated loop whose body raises at [p]: the exception leaves
    the dispatcher, and the trace stops at the call on [p] but for the
    release of the lock. *)
Lemma locked_loop_aborts body event args self l1 p l2 e ev :
  plugins self = l1 ++ p :: l2 ->
  (forall q s, In q l1 -> out (body q s) = Ok tt /\ st (body q s) = s) ->
  (forall q, In q l1 -> trace_all (hook_event_of l1) (body q)) ->
  body p self = mkRun (Raise e) self [ev] ->
  let r := lock (for_plugins body ;;; dispatchEvent call_external event args) self in
  out r = Raise e /\ st r = self /\
  exists pre, tr r = Acquire :: pre ++ [ev; Release] /\ Forall (hook_event_of l1) pre.
Proof.
  intros Hpl Hret Htr Hp r.
  assert (Hloop : for_plugins body self =
                  mkRun (Raise e) self (tr (for_each l1 body self) ++ [ev])).
  { rewrite for_plugins_run, Hpl.
    rewrite (for_each_aborts l1 p l2 body self e Hret) by (rewrite Hp; reflexivity).
    rewrite Hp. reflexivity. }
  subst r. unfold lock.
  rewrite (bind_raise _ _ self e) by (rewrite Hloop; reflexivity).
  rewrite Hloop. cbn [out st tr]. repeat split.
  exists (tr (for_each l1 body self)). split.
  - rewrite <- app_assoc. reflexivity.
  - apply trace_all_for_each. exact Htr.
Qed.

(** The body shared by the hooks that test the activation predicate. *)
Lemma guarded_body_returns (threaded : bool) q h h' args s :
  (isActivated q = true -> method q h args = Ok tt) ->
  let body := if isActivated q
              then (if threaded then startThread q h' args else call_hook q h args)
              else ret tt in
  out (body s) = Ok tt /\ st (body s) = s.
Proof.
  intros Hq body. subst body.
  destruct (isActivated q); [|split; reflexivity].
  destruct threaded; [split; reflexivity|].
  rewrite call_hook_run. simpl. split; [now apply Hq | reflexivity].
Qed.

Lemma guarded_body_trace (threaded : bool) l q h h' args :
  In q l ->
  trace_all (hook_event_of l)
            (if isActivated q
             then (if threaded then startThread q h' args else call_hook q h args)
             else ret tt).
Proof.
  intros Hq. destruct (isActivated q); [|apply trace_all_ret].
  destruct threaded; [apply trace_all_startThread | apply trace_all_call_hook]; exact Hq.
Qed.

(** C5, as amended.  For [downloadPreparing], [downloadFinished],
    [packageFinished] and [afterReconnecting], an exception raised by the
    inline hook of an activated plugin is not caught: when the plugins
    before [p] return, the dispatcher raises the exception of [p] to its
    caller, the manager is unchanged, and the trace ends with the call on
    [p] and the release of the lock, so no later plugin is called, nothing
    is logged and the event of the same name is not fired. *)
Theorem inline_hook_exception_propagates self h arg l1 p l2 e :
  In h [Hook.downloadPreparing; Hook.downloadFinished;
        Hook.packageFinished; Hook.afterReconnecting] ->
  plugins self = l1 ++ p :: l2 ->
  Forall (fun q => isActivated q = true -> method q h [arg] = Ok tt) l1 ->
  isActivated p = true ->
  (h = Hook.downloadFinished \/ h = Hook.packageFinished ->
   str_in (Hook.name h) (__threaded__ p) = false) ->
  method p h [arg] = Raise e ->
  let r := dispatcher call_external h arg self in
  out r = Raise e /\ st r = self /\
  exists pre, tr r = Acquire :: pre ++ [Invoke p h [arg]; Release] /\
              Forall (hook_event_of l1) pre.
Proof.
  intros Hh Hpl Hl1 Hact Hthr Hp.
  assert (Hret : forall q, In q l1 -> isActivated q = true -> method q h [arg] = Ok tt).
  { intros q Hq. exact (proj1 (List.Forall_forall _ _) Hl1 q Hq). }
  destruct Hh as [<-|[<-|[<-|[<-|[]]]]]; cbn [dispatcher];
    unfold downloadPreparing, downloadFinished, packageFinished, afterReconnecting;
    apply (locked_loop_aborts _ _ _ self l1 p l2 e _ Hpl).
  - intros q s Hq.
    exact (guarded_body_returns false q _ Hook.downloadPreparing [arg] s (Hret q Hq)).
  - intros q Hq.
    exact (guarded_body_trace false l1 q Hook.downloadPreparing Hook.downloadPreparing
             [arg] Hq).
  - rewrite Hact, call_hook_run, Hp. reflexivity.
  - intros q s Hq.
    exact (guarded_body_returns _ q _ Hook.downloadFinished [arg] s (Hret q Hq)).
  - intros q Hq. exact (guarded_body_trace _ l1 q _ _ [arg] Hq).
  - rewrite Hact. cbn [Hook.name] in Hthr. rewrite Hthr by (now left).
    rewrite call_hook_run, Hp. reflexivity.
  - intros q s Hq.
    exact (guarded_body_returns _ q _ Hook.packageFinished [arg] s (Hret q Hq)).
  - intros q Hq. exact (guarded_body_trace _ l1 q _ _ [arg] Hq).
  - rewrite Hact. cbn [Hook.name] in Hthr. rewrite Hthr by (now right).
    rewrite call_hook_run, Hp. reflexivity.
  - intros q s Hq.
    exact (guarded_body_returns false q _ Hook.afterReconnecting [arg] s (Hret q Hq)).
  - intros q Hq.
    exact (guarded_body_trace false l1 q Hook.afterReconnecting Hook.afterReconnecting
             [arg] Hq).
  - rewrite Hact, call_hook_run, Hp. reflexivity.
Qed.






Lemma no_lock_in_loop body event args :
  (forall p, trace_all (fun e => ~ lock_event e) (body p)) ->
  trace_all (fun e => ~ lock_event e)
            (for_plugins body ;;; dispatchEvent call_external event args).
Proof. intros Hb. apply hook_loop_trace; [exact Hb | exact bus_not_lock]. Qed.

Ltac not_lock := intros [?|?]; discriminate.

Lemma no_lock_in_guarded_body (threaded : bool) p h h' args :
  trace_all (fun e => ~ lock_event e)
            (if isActivated p
             then (if threaded then startThread p h' args else call_hook p h args)
             else ret tt).
Proof.
  destruct (isActivated p); [|apply trace_all_ret].
  destruct threaded; [apply trace_all_startThread | apply trace_all_call_hook]; not_lock.
Qed.

(** C9, as amended.  The dispatchers decorated with [lock], which are
    [downloadPreparing], [downloadFinished], [downloadFailed],
    [packageFinished], [afterReconnecting] and also [beforeReconnecting],
    take the lock first and release it last, with no other lock event in
    between; [coreReady] and [coreExiting] never touch the lock. *)
Theorem lock_scope_of_dispatchers h arg self :
  let t := tr (dispatcher call_external h arg self) in
  match h with
  | Hook.coreReady | Hook.coreExiting => Forall (fun e => ~ lock_event e) t
  | _ => exists body,
           t = Acquire :: body ++ [Release] /\ Forall (fun e => ~ lock_event e) body
  end.
Proof.
  destruct h; cbn [dispatcher];
    unfold coreReady, coreExiting, downloadPreparing, downloadFinished, downloadFailed,
      packageFinished, beforeReconnecting, afterReconnecting;
    try (eexists; split; [unfold lock; cbn [tr]; reflexivity|]);
    try (apply trace_all_try_catch; [intros ?; not_lock|]);
    apply no_lock_in_loop; intros p;
    first [ exact (no_lock_in_guarded_body false p _ Hook.coreReady _)
          | exact (no_lock_in_guarded_body _ p _ _ _)
          | apply trace_all_call_hook; not_lock ].
Qed.

(** ** The event bus *)

Lemma listener_calls_app t1 t2 :
  listener_calls (t1 ++ t2) = listener_calls t1 ++ listener_calls t2.
Proof. unfold listener_calls. apply omap_app. Qed.

Lemma listener_calls_controller t :
  Forall controller_event t -> listener_calls t = [].
Proof.
  induction 1 as [|e t He _ IH]; [reflexivity|].
  destruct e; simpl in He; try contradiction; exact IH.
Qed.

(** A trace with a given listener call splits around it. *)
Lemma listener_calls_split t c1 f a c2 :
  listener_calls t = c1 ++ (f, a) :: c2 ->
  exists t1 t2, t = t1 ++ CallListener f a :: t2 /\
                listener_calls t1 = c1 /\ listener_calls t2 = c2.
Proof.
  revert c1. induction t as [|e t IH]; intros c1 H.
  - destruct c1; discriminate H.
  - destruct e;
      try (change (listener_calls t = c1 ++ (f, a) :: c2) in H;
           destruct (IH c1 H) as (t1 & t2 & -> & H1 & H2);
           eexists (_ :: t1), t2; repeat split; [exact H1 | exact H2]).
    change (listener_calls (CallListener f0 args :: t))
      with ((f0, args) :: listener_calls t) in H.
    destruct c1 as [|c c1]; simpl in H.
    + injection H as -> -> Ht. exists [], t. repeat split. exact Ht.
    + injection H as <- Ht.
      destruct (IH c1 Ht) as (t1 & t2 & -> & H1 & H2).
      exists (CallListener f0 args :: t1), t2. repeat split; [|exact H2].
      change (listener_calls (CallListener f0 args :: t1))
        with ((f0, args) :: listener_calls t1).
      rewrite H1. reflexivity.
Qed.

(** One guarded listener call: it never raises, it records the call, and
    an exception of the listener is logged with the event, the listener
    and the arguments. *)
Lemma guarded_call_run event f args s :
  let g := try_except (call_listener call_external f args)
             (fun e => log Warning (ErrorCallingHandler event f args e)) in
  out (g s) = Ok tt /\
  listener_calls (tr (g s)) = [(f, args)] /\
  (forall e, out (listener_body call_external f args s) = Raise e ->
             In (Log Warning (ErrorCallingHandler event f args e)) (tr (g s))).
Proof.
  intros g. subst g. unfold try_except, call_listener.
  pose proof (listener_body_trace f args s) as Hq.
  apply listener_calls_controller in Hq.
  unfold bind at 1 2 3 4 5 6. cbn [emit out st tr].
  destruct (out (listener_body call_external f args s)) as [[]|e] eqn:Ho;
    cbn [out st tr log emit].
  - unfold bind. cbn [emit out st tr]. rewrite Ho. cbn [out tr].
    repeat split.
    + change (listener_calls ([CallListener f args] ++ tr (listener_body call_external f args s))
              = [(f, args)]).
      rewrite listener_calls_app, Hq. reflexivity.
    + intros e He. discriminate He.
  - unfold bind. cbn [emit out st tr]. rewrite Ho. cbn [out tr].
    repeat split.
    + change (listener_calls
                (([CallListener f args] ++ tr (listener_body call_external f args s))
                 ++ [Log Warning (ErrorCallingHandler event f args e)]) = [(f, args)]).
      rewrite !listener_calls_app, Hq. reflexivity.
    + intros e' He'. injection He' as <-.
      apply in_or_app. right. now left.
Qed.

(** The delivery loop of [dispatchEvent]. *)
Lemma delivery_loop event args listeners s :
  let r := for_each listeners (fun f =>
             try_except (call_listener call_external f args)
               (fun e => log Warning (ErrorCallingHandler event f args e))) s in
  out r = Ok tt /\
  listener_calls (tr r) = map (fun f => (f, args)) listeners /\
  (forall f e,
     In f listeners ->
     (forall s', out (listener_body call_external f args s') = Raise e) ->
     In (Log Warning (ErrorCallingHandler event f args e)) (tr r)).
Proof.
  revert s. induction listeners as [|f fs IH]; intros s r; subst r.
  - cbn. repeat split. intros g e [].
  - destruct (guarded_call_run event f args s) as (Ho & Hc & Hw).
    cbn [for_each]. rewrite (bind_ok _ _ _ tt Ho). cbn [out st tr].
    match goal with |- context [for_each fs ?b ?s'] =>
      destruct (IH s') as (IHo & IHc & IHw) end.
    split; [exact IHo|]. split.
    + rewrite listener_calls_app, Hc, IHc. reflexivity.
    + intros g e [->|Hin] He; apply in_or_app.
      * left. apply Hw, He.
      * right. apply (IHw g e Hin He).
Qed.

Lemma dispatchEvent_run event args self :
  dispatchEvent call_external event args self =
  match events self !! event with
  | Some listeners =>
      for_each listeners (fun f =>
        try_except (call_listener call_external f args)
          (fun e => log Warning (ErrorCallingHandler event f args e))) self
  | None => mkRun (Ok tt) self []
  end.
Proof.
  unfold dispatchEvent, bind, get. cbn [out st tr app].
  destruct (events self !! event); [|reflexivity].
  destruct (for_each _ _ _). reflexivity.
Qed.

(** The warning of a listener that raises in the manager in which it is
    called. *)
Lemma delivery_loop_logs event args l1 f l2 e s :
  out (listener_body call_external f args (reached_by call_external event args l1 s))
  = Raise e ->
  In (Log Warning (ErrorCallingHandler event f args e))
     (tr (for_each (l1 ++ f :: l2)
            (fun f => try_except (call_listener call_external f args)
                        (fun e => log Warning (ErrorCallingHandler event f args e))) s)).
Proof.
  revert s. induction l1 as [|g l1 IH]; intros s He.
  - cbn [app for_each]. apply bind_trace_prefix.
    apply (guarded_call_run event f args s). exact He.
  - destruct (guarded_call_run event g args s) as (Ho & _ & _).
    change ((g :: l1) ++ f :: l2) with (g :: (l1 ++ f :: l2)).
    cbn [for_each]. rewrite (bind_ok _ _ _ tt Ho). cbn [tr].
    apply in_or_app. right. apply IH.
    unfold reached_by in He |- *. cbn [for_each] in He.
    rewrite (bind_ok _ _ _ tt Ho) in He. exact He.
Qed.

(** C6.  [dispatchEvent] never raises.  With no listener registered for
    the event (no list, or an empty one) it changes and records nothing.
    Otherwise every listener of the list is called with [args], in
    registration order, whether or not an earlier one raised; when a
    listener raises, in the manager that the listeners before it have
    left, its exception is logged as a warning carrying the event name,
    the listener and the arguments; and for [L1] registered before [L2],
    the call of [L1] precedes the call of [L2] in the trace. *)
Theorem dispatchEvent_delivers_in_order event args self :
  let r := dispatchEvent call_external event args self in
  out r = Ok tt /\
  match events self !! event with
  | None => st r = self /\ tr r = []
  | Some listeners =>
      (listeners = [] -> st r = self /\ tr r = []) /\
      listener_calls (tr r) = map (fun f => (f, args)) listeners /\
      (forall l1 f l2 e,
          listeners = l1 ++ f :: l2 ->
          out (listener_body call_external f args
                 (reached_by call_external event args l1 self)) = Raise e ->
          In (Log Warning (ErrorCallingHandler event f args e)) (tr r)) /\
      (forall l1 L1 l2 L2 l3,
          listeners = l1 ++ L1 :: l2 ++ L2 :: l3 ->
          exists t1 t2 t3,
            tr r = t1 ++ CallListener L1 args :: t2 ++ CallListener L2 args :: t3)
  end.
Proof.
  intros r. subst r. rewrite dispatchEvent_run.
  destruct (events self !! event) as [listeners|] eqn:Hev.
  - destruct (delivery_loop event args listeners self) as (Ho & Hc & _).
    split; [exact Ho|]. split; [intros ->; split; reflexivity|].
    split; [exact Hc|]. split.
    { intros l1 f l2 e -> He. apply delivery_loop_logs. exact He. }
    intros l1 L1 l2 L2 l3 ->.
    rewrite map_app in Hc. cbn [map] in Hc.
    apply listener_calls_split in Hc as (t1 & t' & Ht & _ & Hc').
    rewrite map_app in Hc'. cbn [map] in Hc'.
    apply listener_calls_split in Hc' as (t2 & t3 & -> & _ & _).
    exists t1, t2, t3. exact Ht.
  - cbn. repeat split.
Qed.

(** [l.remove(x)] drops exactly the first accepted element. *)
Lemma list_remove_Some {A} (same : A -> bool) l r :
  list_remove same l = Some r ->
  exists l1 x l2, l = l1 ++ x :: l2 /\ r = l1 ++ l2 /\ same x = true /\
                  Forall (fun y => same y = false) l1.
Proof.
  revert r. induction l as [|y l IH]; intros r H; [discriminate H|].
  simpl in H. destruct (same y) eqn:Hy.
  - injection H as <-. exists [], y, l. repeat split; [exact Hy | constructor].
  - destruct (list_remove same l) as [r'|]; [|discriminate H].
    injection H as <-.
    destruct (IH r' eq_refl) as (l1 & x & l2 & -> & -> & Hx & Hl1).
    exists (y :: l1), x, l2. repeat split; [exact Hx | constructor; assumption].
Qed.

Lemma list_remove_None {A} (same : A -> bool) l :
  list_remove same l = None -> Forall (fun y => same y = false) l.
Proof.
  induction l as [|y l IH]; intros H; [constructor|].
  simpl in H. destruct (same y) eqn:Hy; [discriminate H|].
  destruct (list_remove same l); [discriminate H|].
  constructor; [exact Hy | apply IH; reflexivity].
Qed.

Lemma addEvent_run event func self :
  addEvent event func self =
  mkRun (Ok tt)
        (match events self !! event with
         | Some l => if listener_in func l then self
                     else set_events (<[event := l ++ [func]]> (events self)) self
         | None => set_events (<[event := [func]]> (events self)) self
         end) [].
Proof.
  unfold addEvent, bind, get. cbn [out st tr app].
  destruct (events self !! event) as [l|]; [|reflexivity].
  destruct (listener_in func l); reflexivity.
Qed.

(** After [addEvent] the listener is in the list of the event. *)
Lemma addEvent_registered event func self :
  exists l', events (st (addEvent event func self)) !! event = Some l' /\
             func ∈ l' /\ (events_nodup self -> NoDup l').
Proof.
  rewrite addEvent_run. cbn [st].
  destruct (events self !! event) as [l|] eqn:Hev.
  - unfold listener_in. destruct (bool_decide (func ∈ l)) eqn:Hin.
    + apply bool_decide_eq_true in Hin. exists l. split; [exact Hev|].
      split; [exact Hin|]. intros Hnd. apply (Hnd event l Hev).
    + apply bool_decide_eq_false in Hin. exists (l ++ [func]).
      cbn [set_events events]. rewrite lookup_insert_eq.
      split; [reflexivity|]. split; [apply elem_of_app; right; apply list_elem_of_singleton; reflexivity|].
      intros Hnd. apply NoDup_app. split; [apply (Hnd event l Hev)|].
      split; [|apply NoDup_singleton].
      intros x Hx Hx'. apply list_elem_of_singleton in Hx'. subst x. contradiction.
  - exists [func]. cbn [set_events events]. rewrite lookup_insert_eq.
    split; [reflexivity|]. split; [apply list_elem_of_singleton; reflexivity|].
    intros _. apply NoDup_singleton.
Qed.

(** Duplicate-free listener lists are an invariant of the bus. *)
Lemma events_nodup_addEvent event func self :
  events_nodup self -> events_nodup (st (addEvent event func self)).
Proof.
  intros Hnd ev l Hl.
  destruct (decide (ev = event)) as [->|Hne].
  - destruct (addEvent_registered event func self) as (l' & Hl' & _ & Hnd').
    rewrite Hl' in Hl. injection Hl as <-. apply Hnd', Hnd.
  - rewrite addEvent_run in Hl. cbn [st] in Hl.
    destruct (events self !! event) as [l0|];
      [destruct (listener_in func l0)|];
      cbn [set_events events] in Hl;
      try rewrite lookup_insert_ne in Hl by congruence;
      apply (Hnd ev l Hl).
Qed.

Lemma removeEvent_run event func self :
  removeEvent event func self =
  match events self !! event with
  | Some l =>
      if listener_in func l
      then match list_remove (fun g => bool_decide (g = func)) l with
           | Some rest => mkRun (Ok tt) (set_events (<[event := rest]> (events self)) self) []
           | None => mkRun (Raise (ValueError "list.remove(x): x not in list")) self []
           end
      else mkRun (Ok tt) self []
  | None => mkRun (Ok tt) self []
  end.
Proof.
  unfold removeEvent, bind, get. cbn [out st tr app].
  destruct (events self !! event) as [l|]; [|reflexivity].
  destruct (listener_in func l); [|reflexivity].
  destruct (list_remove _ l); reflexivity.
Qed.

Lemma events_nodup_removeEvent event func self :
  events_nodup self -> events_nodup (st (removeEvent event func self)).
Proof.
  intros Hnd ev l Hl. rewrite removeEvent_run in Hl.
  destruct (events self !! event) as [l0|] eqn:Hev; [|apply (Hnd ev l Hl)].
  destruct (listener_in func l0); [|apply (Hnd ev l Hl)].
  destruct (list_remove _ l0) as [rest|] eqn:Hrm; [|apply (Hnd ev l Hl)].
  cbn [st set_events events] in Hl.
  destruct (decide (ev = event)) as [->|Hne].
  - rewrite lookup_insert_eq in Hl. injection Hl as <-.
    apply list_remove_Some in Hrm as (l1 & x & l2 & -> & -> & _ & _).
    pose proof (Hnd event _ Hev) as Hnd0.
    apply NoDup_app in Hnd0 as (H1 & H2 & H3).
    apply NoDup_cons in H3 as [_ H3].
    apply NoDup_app. split; [exact H1|]. split; [|exact H3].
    intros y Hy Hy'. apply (H2 y Hy). apply elem_of_cons. now right.
  - rewrite lookup_insert_ne in Hl by congruence. apply (Hnd ev l Hl).
Qed.

(** A listener of a duplicate-free list is called once by a delivery. *)
Lemma count_in_nodup (func : Listener) (args : list value) l :
  NoDup l -> func ∈ l ->
  length (List.filter (fun c => bool_decide (fst c = func))
                      (map (fun f => (f, args)) l)) = 1.
Proof.
  induction l as [|g l IH]; intros Hnd Hin.
  - apply elem_of_nil in Hin. contradiction.
  - apply NoDup_cons in Hnd as [Hg Hnd]. cbn [map List.filter fst].
    destruct (bool_decide (g = func)) eqn:Hd.
    + apply bool_decide_eq_true in Hd. subst g. cbn [length]. f_equal.
      clear IH Hin Hnd. induction l as [|h l IH]; [reflexivity|].
      apply not_elem_of_cons in Hg as [Hne Hg]. cbn [map List.filter fst].
      rewrite bool_decide_eq_false_2 by congruence. apply IH, Hg.
    + apply bool_decide_eq_false in Hd.
      apply elem_of_cons in Hin as [->|Hin]; [congruence|].
      apply IH; assumption.
Qed.

(** C7.  Registering a listener again for the same event returns without
    changing the manager, so the listener list is unchanged; with
    duplicate-free listener lists, one [dispatchEvent] after the double
    registration calls the listener exactly once; and [removeEvent] of a
    listener that is not registered for the event returns without error
    and without changing the manager. *)
Theorem addEvent_twice_removeEvent_absent event func self :
  let s1 := st (addEvent event func self) in
  addEvent event func s1 = mkRun (Ok tt) s1 [] /\
  (events_nodup self ->
   forall args,
     count_calls func
       (tr (dispatchEvent call_external event args (st (addEvent event func s1)))) = 1) /\
  ((forall l, events self !! event = Some l -> ~ In func l) ->
   removeEvent event func self = mkRun (Ok tt) self []).
Proof.
  intros s1.
  destruct (addEvent_registered event func self) as (l' & Hl' & Hin & Hnd').
  fold s1 in Hl'.
  assert (Hagain : addEvent event func s1 = mkRun (Ok tt) s1 []).
  { rewrite addEvent_run, Hl'. unfold listener_in.
    rewrite bool_decide_eq_true_2 by exact Hin. reflexivity. }
  split; [exact Hagain|]. split.
  - intros Hnd args. rewrite Hagain. cbn [st].
    rewrite dispatchEvent_run, Hl'.
    destruct (delivery_loop event args l' s1) as (_ & Hc & _).
    unfold count_calls. rewrite Hc. apply count_in_nodup; [apply Hnd', Hnd | exact Hin].
  - intros Habs. rewrite removeEvent_run.
    destruct (events self !! event) as [l|] eqn:Hev; [|reflexivity].
    unfold listener_in. rewrite bool_decide_eq_false_2; [reflexivity|].
    intros Hl. apply (Habs l eq_refl). apply list_elem_of_In. exact Hl.
Qed.

(** ** The RPC table *)

Lemma eval_args_Ok args vs :
  eval_args literal_eval args = Ok vs <->
  Forall2 (fun x v => literal_eval x = Ok v) args vs.
Proof.
  revert vs. induction args as [|x args IH]; intros vs; simpl.
  - split.
    + intros H. injection H as <-. constructor.
    + intros H. inversion H. reflexivity.
  - split.
    + destruct (literal_eval x) as [v|e] eqn:Hx; [|discriminate].
      destruct (eval_args literal_eval args) as [vs'|e]; [|discriminate].
      intros H. injection H as <-. constructor; [exact Hx | now apply IH].
    + intros H. inversion H as [|? v ? vs' Hx Hrest]; subst.
      rewrite Hx. apply IH in Hrest. rewrite Hrest. reflexivity.
Qed.

(** The first argument that does not parse decides the exception. *)
Lemma eval_args_first_error pre x post e :
  Forall (fun y => exists v, literal_eval y = Ok v) pre ->
  literal_eval x = Raise e ->
  eval_args literal_eval (pre ++ x :: post) = Raise e.
Proof.
  intros Hpre Hx. induction Hpre as [|y pre [v Hy] _ IH]; simpl.
  - rewrite Hx. reflexivity.
  - rewrite Hy, IH. reflexivity.
Qed.

Lemma callRPC_run plugin func args parse self :
  callRPC literal_eval plugin func args parse self =
  match (if parse then eval_args literal_eval args else Ok args) with
  | Raise e => mkRun (Raise e) self []
  | Ok vs =>
      match pluginMap self !! plugin with
      | None => mkRun (Raise (KeyError plugin)) self []
      | Some p =>
          match attrs p func with
          | None => mkRun (Raise (AttributeError func)) self []
          | Some (Field _) => mkRun (Raise (TypeError "object is not callable")) self []
          | Some (Method body) => mkRun (body vs) self [CallAttr p func vs]
          end
      end
  end.
Proof.
  unfold callRPC, bind, get, lift, ret, getattr, call_attr, raise, emit.
  destruct parse; cbn [out st tr app].
  - destruct (eval_args literal_eval args) as [vs|e]; cbn [out st tr app]; [|reflexivity].
    destruct (pluginMap self !! plugin) as [p|]; [|reflexivity].
    destruct (attrs p func) as [[body|v]|]; reflexivity.
  - destruct (pluginMap self !! plugin) as [p|]; [|reflexivity].
    destruct (attrs p func) as [[body|v]|]; reflexivity.
Qed.

(** C3, as amended.  [callRPC] leaves the manager unchanged and never
    reads the RPC table.  With [parse] set it first parses the arguments in
    order and raises the parser's exception for the first one that is not a
    literal, whether or not the plugin is active.  Once the arguments are
    there (parsed, or as given when [parse] is unset), it raises
    [KeyError] when the plugin is not a key of [pluginMap], raises
    [AttributeError] when the instance has no attribute of that name,
    and otherwise calls the attribute with the positional arguments and
    returns what the method returns or raises. *)
Theorem callRPC_outcomes self plugin func args parse :
  let r := callRPC literal_eval plugin func args parse self in
  st r = self /\
  (forall table,
      out (callRPC literal_eval plugin func args parse (set_methods table self)) = out r) /\
  (forall pre x post e,
      parse = true -> args = pre ++ x :: post ->
      Forall (fun y => exists v, literal_eval y = Ok v) pre ->
      literal_eval x = Raise e ->
      out r = Raise e /\ tr r = []) /\
  (forall vs,
      parse = false /\ vs = args \/
      parse = true /\ Forall2 (fun x v => literal_eval x = Ok v) args vs ->
      match pluginMap self !! plugin with
      | None => out r = Raise (KeyError plugin) /\ tr r = []
      | Some p =>
          match attrs p func with
          | None => out r = Raise (AttributeError func) /\ tr r = []
          | Some (Field _) => out r = Raise (TypeError "object is not callable") /\ tr r = []
          | Some (Method body) => out r = body vs /\ tr r = [CallAttr p func vs]
          end
      end).
Proof.
  intros r. subst r. split; [|split; [|split]].
  - rewrite callRPC_run.
    destruct (if parse then _ else _); [|reflexivity].
    destruct (pluginMap self !! plugin) as [p|]; [|reflexivity].
    destruct (attrs p func) as [[body|v]|]; reflexivity.
  - intros table. rewrite !callRPC_run. cbn [set_methods pluginMap].
    destruct (if parse then _ else _); [|reflexivity].
    destruct (pluginMap self !! plugin) as [p|]; [|reflexivity].
    destruct (attrs p func) as [[body|v]|]; reflexivity.
  - intros pre x post e -> -> Hpre Hx. rewrite callRPC_run.
    rewrite (eval_args_first_error pre x post e Hpre Hx). split; reflexivity.
  - intros vs Hvs. rewrite callRPC_run.
    assert (Hargs : (if parse then eval_args literal_eval args else Ok args) = Ok vs).
    { destruct Hvs as [[-> ->]|[-> H]]; [reflexivity | now apply eval_args_Ok]. }
    rewrite Hargs.
    destruct (pluginMap self !! plugin) as [p|]; [|split; reflexivity].
    destruct (attrs p func) as [[body|v]|]; split; reflexivity.
Qed.

(** ** The activation controller *)

Lemma find_addon_acc plugin l acc a :
  foldl (fun addon inst => if bool_decide (__name__ inst = plugin) then Some inst else addon)
        acc l = Some a ->
  (In a l /\ __name__ a = plugin) \/ acc = Some a.
Proof.
  revert acc. induction l as [|x l IH]; intros acc H; simpl in H.
  - now right.
  - destruct (IH _ H) as [[Hin Hn]|Hacc].
    + left. split; [now right | exact Hn].
    + destruct (bool_decide (__name__ x = plugin)) eqn:Hx.
      * apply bool_decide_eq_true in Hx. injection Hacc as <-.
        left. split; [now left | exact Hx].
      * now right.
Qed.

Lemma find_addon_Some plugin l a :
  find_addon plugin l = Some a -> In a l /\ __name__ a = plugin.
Proof.
  intros H. destruct (find_addon_acc plugin l None a H) as [?|?]; [assumption|discriminate].
Qed.

Lemma find_addon_present plugin l :
  In plugin (map __name__ l) -> exists a, find_addon plugin l = Some a.
Proof.
  intros Hin. unfold find_addon.
  assert (H : forall acc,
             In plugin (map __name__ l) \/ is_Some acc ->
             is_Some (foldl (fun addon inst =>
                        if bool_decide (__name__ inst = plugin) then Some inst else addon)
                        acc l)).
  { clear Hin. induction l as [|x l IH]; intros acc [Hin|Hacc]; simpl.
    - destruct Hin.
    - exact Hacc.
    - apply IH. destruct Hin as [Hx|Hin]; [|now left].
      right. rewrite bool_decide_eq_true_2 by exact Hx. eexists; reflexivity.
    - apply IH. right. destruct (bool_decide _); [eexists; reflexivity | exact Hacc]. }
  destruct (H None (or_introl Hin)) as [a Ha]. exists a. exact Ha.
Qed.

Lemma find_addon_absent plugin l :
  ~ In plugin (map __name__ l) -> find_addon plugin l = None.
Proof.
  intros Hn. destruct (find_addon plugin l) as [a|] eqn:H; [|reflexivity].
  apply find_addon_Some in H as [Hin <-]. exfalso. apply Hn. now apply in_map.
Qed.

Lemma deactivateAddon_run plugin self :
  deactivateAddon plugin self =
  match find_addon plugin (plugins self) with
  | None => mkRun (Ok tt) self []
  | Some addon =>
      match unload addon with
      | Raise e => mkRun (Raise e) self [Log Debug (PluginUnloaded plugin); Unload addon]
      | Ok _ =>
          let t := [Log Debug (PluginUnloaded plugin); Unload addon;
                    Log Debug (RemovedCallback (removeJob (pyload self) (cb addon)))] in
          match list_remove (same_addon addon) (plugins self) with
          | None => mkRun (Raise (ValueError "list.remove(x): x not in list")) self t
          | Some rest =>
              match pluginMap self !! __name__ addon with
              | None => mkRun (Raise (KeyError (__name__ addon))) (set_plugins rest self) t
              | Some _ =>
                  mkRun (Ok tt)
                        (set_pluginMap (delete (__name__ addon) (pluginMap self))
                                       (set_plugins rest self)) t
              end
          end
      end
  end.
Proof.
  unfold deactivateAddon, bind, get, lift, ret, raise, log, emit, modify.
  cbn [out st tr app].
  destruct (find_addon plugin (plugins self)) as [addon|]; [|reflexivity].
  cbn [out st tr app].
  destruct (unload addon) as [[]|e]; cbn [out st tr app]; [|reflexivity].
  destruct (list_remove (same_addon addon) (plugins self)) as [rest|];
    cbn [out st tr app]; [|reflexivity].
  cbn [set_plugins pluginMap].
  destruct (pluginMap self !! __name__ addon); reflexivity.
Qed.

Lemma activateAddon_run plugin self :
  activateAddon plugin self =
  if existsb (fun inst => bool_decide (__name__ inst = plugin)) (plugins self)
  then mkRun (Ok tt) self []
  else match loadClass (pyload self) "addon" plugin with
       | Raise e => mkRun (Raise e) self []
       | Ok None => mkRun (Ok tt) self []
       | Ok (Some pluginClass) =>
           match cls_new pluginClass with
           | Raise e => mkRun (Raise e) self [Log Debug (PluginLoaded plugin)]
           | Ok inst =>
               mkRun (Ok tt)
                     (set_pluginMap (<[cls_name pluginClass := inst]> (pluginMap self))
                                    (set_plugins (plugins self ++ [inst]) self))
                     [Log Debug (PluginLoaded plugin); StartNewThread inst Hook.coreReady]
           end
       end.
Proof.
  unfold activateAddon, bind, get, lift, ret, raise, log, emit, modify.
  cbn [out st tr app].
  destruct (existsb _ (plugins self)); [reflexivity|].
  destruct (loadClass (pyload self) "addon" plugin) as [[pluginClass|]|e];
    cbn [out st tr app]; try reflexivity.
  destruct (cls_new pluginClass) as [inst|e]; reflexivity.
Qed.

(** Within a list of objects with distinct identities, the identity
    decides the object. *)
Lemma same_oid_same_addon (l : list Addon) a b :
  NoDup (map oid l) -> In a l -> In b l -> oid a = oid b -> a = b.
Proof.
  induction l as [|x l IH]; intros Hnd Ha Hb Hab; [destruct Ha|].
  cbn [map] in Hnd. apply NoDup_cons in Hnd as [Hx Hnd].
  assert (Hout : forall c, In c l -> oid c <> oid x).
  { intros c Hc Heq. apply Hx. rewrite <- Heq.
    apply list_elem_of_In. now apply in_map. }
  destruct Ha as [<-|Ha], Hb as [<-|Hb].
  - reflexivity.
  - exfalso. apply (Hout b Hb). congruence.
  - exfalso. apply (Hout a Ha). congruence.
  - now apply IH.
Qed.

(** C4, as amended.  For a name present in the index, [deactivateAddon]
    finds an instance with that name.  When its [unload()] raises, the
    exception is neither caught nor logged by [deactivateAddon]: it leaves
    the method after the two records made before the teardown, and the
    manager, with its plugins list and [pluginMap], is unchanged.  When
    [unload()] returns, the name is no longer a key of [pluginMap], the
    call returns normally if the name was a key of [pluginMap], and with
    distinct objects and at most one instance per name the name is absent
    from the plugins list afterwards. *)
Theorem deactivateAddon_teardown plugin self :
  In plugin (index_names self) ->
  exists addon,
    find_addon plugin (plugins self) = Some addon /\
    In addon (plugins self) /\ __name__ addon = plugin /\
    let r := deactivateAddon plugin self in
    match unload addon with
    | Raise e =>
        out r = Raise e /\ st r = self /\
        tr r = [Log Debug (PluginUnloaded plugin); Unload addon]
    | Ok _ =>
        pluginMap (st r) !! plugin = None /\
        (is_Some (pluginMap self !! plugin) -> out r = Ok tt) /\
        (NoDup (map oid (plugins self)) -> NoDup (index_names self) ->
         ~ In plugin (index_names (st r)))
    end.
Proof.
  intros Hin. destruct (find_addon_present plugin (plugins self) Hin) as [addon Hfind].
  destruct (find_addon_Some _ _ _ Hfind) as [Hmem Hname].
  exists addon. split; [exact Hfind|]. split; [exact Hmem|]. split; [exact Hname|].
  intros r. subst r. rewrite deactivateAddon_run, Hfind.
  destruct (unload addon) as [[]|e]; [|repeat split].
  cbn zeta. rewrite Hname.
  destruct (list_remove (same_addon addon) (plugins self)) as [rest|] eqn:Hrm.
  - apply list_remove_Some in Hrm as (l1 & x & l2 & Hl & -> & Hx & Hl1).
    assert (Hnames : NoDup (map oid (plugins self)) -> NoDup (index_names self) ->
                     ~ In plugin (map __name__ (l1 ++ l2))).
    { intros Hoid Hnd.
      assert (x = addon) as ->.
      { symmetry. apply (same_oid_same_addon (plugins self)); try assumption.
        - rewrite Hl. apply in_or_app. right. now left.
        - apply Nat.eqb_eq. exact Hx. }
      unfold index_names in Hnd. rewrite Hl, map_app in Hnd. cbn [map] in Hnd.
      rewrite Hname in Hnd. rewrite map_app.
      apply NoDup_app in Hnd as (_ & Hsep & Hnd2).
      apply NoDup_cons in Hnd2 as [Hnot _].
      intros Habs. apply in_app_or in Habs as [Ha|Ha].
      - apply (Hsep plugin); [apply list_elem_of_In; exact Ha|].
        apply elem_of_cons. now left.
      - apply Hnot. apply list_elem_of_In. exact Ha. }
    destruct (pluginMap self !! plugin) as [q|] eqn:Hq; cbn [out st].
    + split; [apply lookup_delete_eq|]. split; [reflexivity|exact Hnames].
    + split; [exact Hq|]. split; [intros [? ?]; discriminate | exact Hnames].
  - exfalso. apply list_remove_None in Hrm.
    pose proof (proj1 (List.Forall_forall _ _) Hrm addon Hmem) as Hself.
    unfold same_addon in Hself. rewrite Nat.eqb_refl in Hself. discriminate.
Qed.

Lemma deactivateAddon_methods plugin self :
  methods (st (deactivateAddon plugin self)) = methods self.
Proof.
  rewrite deactivateAddon_run.
  destruct (find_addon _ _) as [addon|]; [|reflexivity].
  destruct (unload addon) as [[]|e]; [|reflexivity].
  cbn zeta. destruct (list_remove _ _); [|reflexivity].
  destruct (pluginMap self !! _); reflexivity.
Qed.

(** ** Building the index *)

(** One iteration of the loop of [createIndex]: it never raises, and it
    either appends the instance of a configured, loadable plugin and files
    it under its class name, or leaves the instance list and [pluginMap]
    alone. *)
Lemma createIndex_iteration pluginname loc self :
  let r := try_except (createIndex_body pluginname loc)
             (fun _ => log Warning (FailedActivating pluginname) ;;; ret loc) self in
  exists loc',
    out r = Ok loc' /\ pyload (st r) = pyload self /\ plugins (st r) = plugins self /\
    ((exists cls p, instantiated (pyload self) pluginname cls p /\
                    l_plugins loc' = l_plugins loc ++ [p] /\
                    pluginMap (st r) = <[cls_name cls := p]> (pluginMap self)) \/
     ((forall cls p, ~ instantiated (pyload self) pluginname cls p) /\
      l_plugins loc' = l_plugins loc /\ pluginMap (st r) = pluginMap self)).
Proof.
  intros r. subst r.
  unfold try_except, createIndex_body, bind, get, lift, ret, log, emit, modify.
  cbn [out st tr app].
  destruct (getPlugin (pyload self) pluginname "activated") as [v|e] eqn:Hv;
    cbn [out st tr app].
  2:{ exists loc. repeat split. right. repeat split.
      intros cls p [[v [Hv' _]] _]. congruence. }
  destruct (truthy v) eqn:Ht; cbn [out st tr app].
  2:{ eexists. repeat split. right. repeat split.
      intros cls p [[v' [Hv' Ht']] _]. congruence. }
  destruct (loadClass (pyload self) "addon" pluginname) as [[cls|]|e] eqn:Hc;
    cbn [out st tr app].
  - destruct (cls_new cls) as [p|e] eqn:Hp; cbn [out st tr app].
    + eexists. repeat split. left. exists cls, p.
      split; [|split; reflexivity].
      split; [exists v; split; assumption|]. split; assumption.
    + exists loc. repeat split. right. repeat split.
      intros cls' p' (_ & Hc' & Hp'). congruence.
  - exists loc. repeat split. right. repeat split.
    intros cls' p' (_ & Hc' & _). congruence.
  - exists loc. repeat split. right. repeat split.
    intros cls' p' (_ & Hc' & _). congruence.
Qed.

Lemma instantiated_det core pluginname cls p cls' p' :
  instantiated core pluginname cls p -> instantiated core pluginname cls' p' ->
  cls' = cls /\ p' = p.
Proof.
  intros (_ & Hc & Hp) (_ & Hc' & Hp').
  assert (cls' = cls) as -> by congruence. split; congruence.
Qed.

(** The loop of [createIndex]: it keeps what it has collected, collects
    the instance of every configured and loadable name, and files under a
    class name the instance that all plugins of that class name give. *)
Lemma createIndex_loop_spec names :
  forall loc self,
  let r := createIndex_loop names loc self in
  exists locf,
    out r = Ok locf /\ pyload (st r) = pyload self /\ plugins (st r) = plugins self /\
    (forall p, In p (l_plugins loc) -> In p (l_plugins locf)) /\
    (forall n c p, In n names -> instantiated (pyload self) n c p ->
                   In p (l_plugins locf)) /\
    (forall k p,
        (forall n c p', In n names -> instantiated (pyload self) n c p' ->
                        cls_name c = k -> p' = p) ->
        pluginMap self !! k = Some p \/
        (exists n c, In n names /\ instantiated (pyload self) n c p /\ cls_name c = k) ->
        pluginMap (st r) !! k = Some p).
Proof.
  induction names as [|n names IH]; intros loc self r; subst r.
  - exists loc. cbn. repeat split; try tauto.
    intros k p _ [H|(? & ? & [] & _)]. exact H.
  - destruct (createIndex_iteration n loc self) as (loc' & Ho & Hpy & Hpl & Hcase).
    cbn [createIndex_loop]. rewrite (bind_ok _ _ _ loc' Ho). cbn [out st tr].
    match goal with |- context [createIndex_loop names loc' ?s1] =>
      set (s' := s1) in *; destruct (IH loc' s') as (locf & IHo & IHpy & IHpl & IHkeep & IHnew & IHmap)
    end.
    rewrite Hpy in IHpy, IHnew, IHmap.
    exists locf. split; [exact IHo|]. split; [exact IHpy|].
    split; [rewrite IHpl; exact Hpl|].
    assert (Hloc : forall p, In p (l_plugins loc) -> In p (l_plugins loc')).
    { intros p Hp. destruct Hcase as [(c & q & _ & -> & _)|(_ & -> & _)];
        [apply in_or_app; now left | exact Hp]. }
    split; [intros p Hp; apply IHkeep, Hloc, Hp|]. split.
    + intros m c p [<-|Hm] Hinst; [|apply (IHnew m c p Hm Hinst)].
      apply IHkeep. destruct Hcase as [(c' & q & Hi & -> & _)|(Hno & _)].
      * destruct (instantiated_det _ _ _ _ _ _ Hinst Hi) as [_ ->].
        apply in_or_app. right. now left.
      * exfalso. apply (Hno c p Hinst).
    + intros k p Huniq Hsrc. apply IHmap.
      * intros m c p' Hm. apply Huniq. now right.
      * destruct Hcase as [(c' & q & Hi & _ & Hmap)|(Hno & _ & Hmap)]; rewrite Hmap.
        -- destruct (decide (cls_name c' = k)) as [Hk|Hk].
           ++ left. rewrite <- Hk, lookup_insert_eq. f_equal.
              apply (Huniq n c' q (or_introl eq_refl) Hi Hk).
           ++ rewrite lookup_insert_ne by exact Hk.
              destruct Hsrc as [H|(m & c & [<-|Hm] & Hinst & Hc)].
              ** now left.
              ** destruct (instantiated_det _ _ _ _ _ _ Hinst Hi) as [-> _]. contradiction.
              ** right. exists m, c. split; [assumption | split; assumption].
        -- destruct Hsrc as [H|(m & c & [<-|Hm] & Hinst & Hc)].
           ++ now left.
           ++ exfalso. apply (Hno c p Hinst).
           ++ right. exists m, c. split; [assumption | split; assumption].
Qed.

Lemma createIndex_run self :
  createIndex self =
  let r := createIndex_loop (addonPlugins (pyload self)) (mkLocals [] [] []) self in
  match out r with
  | Ok loc =>
      mkRun (Ok tt) (set_plugins (l_plugins loc) (st r))
            (tr r ++ [Log Info (ActivatedPlugins (sorted (l_active loc)));
                      Log Info (DeactivatePlugins (sorted (l_deactive loc)))])
  | Raise e => mkRun (Raise e) (st r) (tr r)
  end.
Proof.
  unfold createIndex, bind, get, log, emit, modify. cbn [out st tr app].
  destruct (out (createIndex_loop _ _ self)); reflexivity.
Qed.




(** ** The index under activation and deactivation *)

Lemma NoDup_map_middle {A B} (f : A -> B) l1 x l2 :
  NoDup (map f (l1 ++ x :: l2)) ->
  NoDup (map f (l1 ++ l2)) /\ ~ In (f x) (map f (l1 ++ l2)).
Proof.
  rewrite !map_app. cbn [map]. intros H.
  apply NoDup_app in H as (H1 & Hsep & H2).
  apply NoDup_cons in H2 as [Hx H2]. split.
  - apply NoDup_app. split; [exact H1|]. split; [|exact H2].
    intros y Hy Hy'. apply (Hsep y Hy). apply elem_of_cons. now right.
  - intros Hin. apply in_app_or in Hin as [Hin|Hin].
    + apply (Hsep (f x)); [apply list_elem_of_In; exact Hin|].
      apply elem_of_cons. now left.
    + apply Hx. apply list_elem_of_In. exact Hin.
Qed.

Lemma existsb_name_false plugin l :
  existsb (fun inst => bool_decide (__name__ inst = plugin)) l = false ->
  ~ In plugin (map __name__ l).
Proof.
  induction l as [|x l IH]; intros H; [intros []|].
  cbn [existsb] in H. apply orb_false_iff in H as [Hx Hl].
  apply bool_decide_eq_false in Hx.
  intros [Hin|Hin]; [contradiction | now apply IH].
Qed.

Lemma existsb_name_In plugin l :
  existsb (fun inst => bool_decide (__name__ inst = plugin)) l = true ->
  In plugin (map __name__ l).
Proof.
  induction l as [|x l IH]; intros H; [discriminate|].
  cbn [existsb] in H. apply orb_true_iff in H as [Hx|Hl].
  - apply bool_decide_eq_true in Hx. now left.
  - right. now apply IH.
Qed.

Lemma existsb_name_true plugin l :
  In plugin (map __name__ l) ->
  existsb (fun inst => bool_decide (__name__ inst = plugin)) l = true.
Proof.
  intros H. destruct (existsb _ l) eqn:He; [reflexivity|].
  exfalso. exact (existsb_name_false plugin l He H).
Qed.

Lemma find_addon_last plugin l p :
  __name__ p = plugin -> find_addon plugin (l ++ [p]) = Some p.
Proof.
  intros Hp. unfold find_addon. rewrite foldl_app. cbn [foldl].
  rewrite bool_decide_eq_true_2 by exact Hp. reflexivity.
Qed.

Lemma list_remove_fresh_last p l :
  ~ In (oid p) (map oid l) -> list_remove (same_addon p) (l ++ [p]) = Some l.
Proof.
  induction l as [|x l IH]; intros Hnew; cbn [app list_remove].
  - unfold same_addon. rewrite Nat.eqb_refl. reflexivity.
  - destruct (same_addon p x) eqn:Hx.
    + exfalso. apply Hnew. left. unfold same_addon in Hx.
      apply Nat.eqb_eq in Hx. congruence.
    + rewrite IH; [reflexivity|]. intros Hin. apply Hnew. now right.
Qed.

(** Under a well-formed index, [deactivateAddon] of a present name with a
    returning teardown removes exactly that instance. *)
Lemma deactivateAddon_ok_run plugin self addon :
  index_ok self ->
  find_addon plugin (plugins self) = Some addon ->
  unload addon = Ok tt ->
  exists l1 l2,
    plugins self = l1 ++ addon :: l2 /\
    deactivateAddon plugin self =
    mkRun (Ok tt)
          (set_pluginMap (delete plugin (pluginMap self)) (set_plugins (l1 ++ l2) self))
          [Log Debug (PluginUnloaded plugin); Unload addon;
           Log Debug (RemovedCallback (removeJob (pyload self) (cb addon)))].
Proof.
  intros (Hoid & Hnames & Hmap) Hfind Hun.
  destruct (find_addon_Some _ _ _ Hfind) as [Hmem Hname].
  rewrite deactivateAddon_run, Hfind, Hun. cbn zeta.
  destruct (list_remove (same_addon addon) (plugins self)) as [rest|] eqn:Hrm.
  - apply list_remove_Some in Hrm as (l1 & x & l2 & Hl & -> & Hx & _).
    assert (x = addon) as ->.
    { symmetry. apply (same_oid_same_addon (plugins self)); try assumption.
      - rewrite Hl. apply in_or_app. right. now left.
      - apply Nat.eqb_eq. exact Hx. }
    exists l1, l2. split; [exact Hl|].
    destruct (pluginMap self !! __name__ addon) as [q|] eqn:Hq.
    + rewrite Hname. reflexivity.
    + exfalso. assert (Hsome : pluginMap self !! __name__ addon = Some addon)
        by (apply Hmap; split; [exact Hmem | reflexivity]).
      congruence.
  - exfalso. apply list_remove_None in Hrm.
    pose proof (proj1 (List.Forall_forall _ _) Hrm addon Hmem) as Hself.
    unfold same_addon in Hself. rewrite Nat.eqb_refl in Hself. discriminate.
Qed.

(** C2, as amended.  [deactivateAddon] never changes the RPC method table,
    and neither does a sequence of [deactivateAddon] calls.  After
    [deactivateAddon] has returned on a well-formed index, the name is
    absent from the plugins list and from [pluginMap], while the table
    still holds whatever it held for that name. *)
Theorem rpc_table_survives_deactivation names plugin self :
  methods (deactivate_all names self) = methods self /\
  let r := deactivateAddon plugin self in
  methods (st r) = methods self /\
  (index_ok self -> out r = Ok tt ->
   ~ In plugin (index_names (st r)) /\ pluginMap (st r) !! plugin = None /\
   methods (st r) !! plugin = methods self !! plugin).
Proof.
  split.
  { revert self. induction names as [|name names IH]; intros self; [reflexivity|].
    unfold deactivate_all in *. cbn [foldl]. rewrite IH.
    apply deactivateAddon_methods. }
  cbn zeta. split; [apply deactivateAddon_methods|].
  intros Hok Hout.
  split; [|split; [|rewrite deactivateAddon_methods; reflexivity]].
  - destruct (find_addon plugin (plugins self)) as [addon|] eqn:Hfind.
    + destruct (unload addon) as [[]|e] eqn:Hun.
      * destruct (deactivateAddon_ok_run plugin self addon Hok Hfind Hun)
          as (l1 & l2 & Hl & ->). cbn [st].
        destruct (find_addon_Some _ _ _ Hfind) as [_ Hname].
        destruct Hok as (_ & Hnames & _).
        unfold index_names in Hnames |- *. rewrite Hl in Hnames.
        destruct (NoDup_map_middle __name__ _ _ _ Hnames) as [_ Hgone].
        rewrite Hname in Hgone. exact Hgone.
      * rewrite deactivateAddon_run, Hfind, Hun in Hout. discriminate Hout.
    + rewrite deactivateAddon_run, Hfind. cbn [st].
      intros Hin. destruct (find_addon_present _ _ Hin) as [a Ha]. congruence.
  - destruct (find_addon plugin (plugins self)) as [addon|] eqn:Hfind.
    + destruct (unload addon) as [[]|e] eqn:Hun.
      * destruct (deactivateAddon_ok_run plugin self addon Hok Hfind Hun)
          as (l1 & l2 & _ & ->).
        cbn [st set_pluginMap pluginMap]. apply lookup_delete_eq.
      * rewrite deactivateAddon_run, Hfind, Hun in Hout. discriminate Hout.
    + rewrite deactivateAddon_run, Hfind. cbn [st].
      destruct (pluginMap self !! plugin) as [p|] eqn:Hp; [|reflexivity].
      apply (proj2 (proj2 Hok)) in Hp as [Hin Hn].
      assert (Hpresent : In plugin (map __name__ (plugins self)))
        by (rewrite <- Hn; now apply in_map).
      destruct (find_addon_present _ _ Hpresent) as [a Ha]. congruence.
Qed.

(** X1.  Under a well-formed index [deactivateAddon] fails in one way
    only, the exception of the teardown: it never raises the [KeyError] of
    [del] nor the [ValueError] of [remove].  It keeps the index well
    formed, and when it returns the name is gone from the plugins list and
    from [pluginMap]. *)
Theorem deactivateAddon_keeps_index_ok plugin self :
  index_ok self ->
  let r := deactivateAddon plugin self in
  index_ok (st r) /\
  (out r = Ok tt \/
   exists addon e, find_addon plugin (plugins self) = Some addon /\
                   unload addon = Raise e /\ out r = Raise e /\ st r = self) /\
  (out r = Ok tt ->
   ~ In plugin (index_names (st r)) /\ pluginMap (st r) !! plugin = None).
Proof.
  intros Hok r. subst r.
  destruct (find_addon plugin (plugins self)) as [addon|] eqn:Hfind.
  - destruct (unload addon) as [[]|e] eqn:Hun.
    + destruct (deactivateAddon_ok_run plugin self addon Hok Hfind Hun)
        as (l1 & l2 & Hl & ->). cbn [out st].
      destruct (find_addon_Some _ _ _ Hfind) as [Hmem Hname].
      destruct Hok as (Hoid & Hnames & Hmap).
      unfold index_names in Hnames. rewrite Hl in Hoid, Hnames.
      destruct (NoDup_map_middle oid _ _ _ Hoid) as [Hoid' _].
      destruct (NoDup_map_middle __name__ _ _ _ Hnames) as [Hnames' Hgone].
      rewrite Hname in Hgone.
      split; [|split; [now left | intros _; split; [exact Hgone | apply lookup_delete_eq]]].
      split; [exact Hoid'|]. split; [exact Hnames'|].
      intros name p. cbn [set_pluginMap set_plugins pluginMap plugins].
      destruct (decide (name = plugin)) as [->|Hne].
      * rewrite lookup_delete_eq. split; [discriminate|].
        intros [Hp Hn]. exfalso. apply Hgone. rewrite <- Hn. now apply in_map.
      * rewrite lookup_delete_ne by congruence. rewrite Hmap, Hl. split.
        -- intros [Hp Hn]. split; [|exact Hn].
           apply in_app_or in Hp as [Hp|[<-|Hp]]; apply in_or_app;
             [now left | congruence | now right].
        -- intros [Hp Hn]. split; [|exact Hn].
           apply in_app_or in Hp as [Hp|Hp]; apply in_or_app;
             [now left | right; now right].
    + rewrite deactivateAddon_run, Hfind, Hun. cbn [out st].
      split; [exact Hok|]. split; [|discriminate].
      right. exists addon, e. repeat split; assumption.
  - rewrite deactivateAddon_run, Hfind. cbn [out st].
    split; [exact Hok|]. split; [now left|]. intros _.
    assert (Habs : ~ In plugin (index_names self)).
    { intros Hin. destruct (find_addon_present _ _ Hin) as [a Ha]. congruence. }
    split; [exact Habs|].
    destruct (pluginMap self !! plugin) as [p|] eqn:Hp; [|reflexivity].
    exfalso. apply Habs. apply (proj2 (proj2 Hok)) in Hp as [Hin <-].
    now apply in_map.
Qed.

(** X2.  [activateAddon] of a name already in the index does nothing at
    all: the manager is unchanged, nothing is loaded, logged or started.
    With a coherent loader it keeps the index well formed, and when it
    returns after loading a class, the new instance is the last of the
    plugins list and is filed under the name. *)
Theorem activateAddon_keeps_index_ok plugin self :
  (In plugin (index_names self) -> activateAddon plugin self = mkRun (Ok tt) self []) /\
  (index_ok self -> loads_coherently self plugin ->
   let r := activateAddon plugin self in
   index_ok (st r) /\
   (forall cls p,
       ~ In plugin (index_names self) ->
       loadClass (pyload self) "addon" plugin = Ok (Some cls) ->
       cls_new cls = Ok p ->
       out r = Ok tt /\ plugins (st r) = plugins self ++ [p] /\
       pluginMap (st r) !! plugin = Some p)).
Proof.
  split.
  - intros Hin. rewrite activateAddon_run.
    unfold index_names in Hin. rewrite (existsb_name_true plugin _ Hin). reflexivity.
  - intros Hok Hload r. subst r. pose proof Hok as (Hoid & Hnames & Hmap).
    rewrite activateAddon_run.
    destruct (existsb _ (plugins self)) eqn:Hex.
    { split; [exact Hok|].
      intros cls p Habs. exfalso. apply Habs. exact (existsb_name_In _ _ Hex). }
    apply existsb_name_false in Hex.
    destruct (loadClass (pyload self) "addon" plugin) as [[cls|]|e] eqn:Hc;
      try (split; [exact Hok | intros ? ? _ ?; discriminate]).
    destruct (cls_new cls) as [p|e] eqn:Hp;
      [|split; [exact Hok|];
        intros cls' p' _ Hc' Hp'; injection Hc' as <-; congruence].
    destruct (Hload cls p Hc Hp) as (Hcn & Hpn & Hfresh).
    cbn [st out set_pluginMap set_plugins plugins pluginMap]. rewrite Hcn.
    split.
    + unfold index_ok, index_names.
      cbn [plugins pluginMap set_pluginMap set_plugins]. split; [|split].
      * rewrite map_app. apply NoDup_app. split; [exact Hoid|].
        split; [|apply NoDup_singleton].
        intros y Hy Hy'. apply list_elem_of_singleton in Hy'. subst y.
        apply Hfresh. apply list_elem_of_In. exact Hy.
      * rewrite map_app. apply NoDup_app.
        split; [exact Hnames|]. split; [|apply NoDup_singleton].
        intros y Hy Hy'. apply list_elem_of_singleton in Hy'. cbn in Hy'. subst y.
        apply Hex. rewrite <- Hpn. apply list_elem_of_In. exact Hy.
      * intros name q. destruct (decide (name = plugin)) as [->|Hne].
        -- rewrite lookup_insert_eq. split.
           ++ intros H. injection H as <-. split; [|exact Hpn].
              apply in_or_app. right. now left.
           ++ intros [Hq Hn]. apply in_app_or in Hq as [Hq|[<-|[]]]; [|reflexivity].
              exfalso. apply Hex. rewrite <- Hn. now apply in_map.
        -- rewrite lookup_insert_ne by congruence. rewrite Hmap. split.
           ++ intros [Hq Hn]. split; [|exact Hn]. apply in_or_app. now left.
           ++ intros [Hq Hn]. split; [|exact Hn].
              apply in_app_or in Hq as [Hq|[<-|[]]]; [exact Hq | congruence].
    + intros cls' p' _ Hc' Hp'. injection Hc' as <-.
      assert (p' = p) as -> by congruence.
      split; [reflexivity|]. split; [reflexivity|]. apply lookup_insert_eq.
Qed.

(** X3.  Activation followed by deactivation is a round trip on the
    index: for a name absent from a well-formed index, with a coherent
    loader and a returning teardown, [deactivateAddon] after
    [activateAddon] returns and leaves the plugins list and [pluginMap] as
    they were before the activation. *)
Theorem activate_then_deactivate plugin self cls p :
  index_ok self ->
  ~ In plugin (index_names self) ->
  loads_coherently self plugin ->
  loadClass (pyload self) "addon" plugin = Ok (Some cls) ->
  cls_new cls = Ok p ->
  unload p = Ok tt ->
  let r := deactivateAddon plugin (st (activateAddon plugin self)) in
  out r = Ok tt /\ plugins (st r) = plugins self /\ pluginMap (st r) = pluginMap self.
Proof.
  intros Hok Habs Hload Hc Hp Hun r. subst r.
  destruct (Hload cls p Hc Hp) as (Hcn & Hpn & Hfresh).
  assert (Hnone : pluginMap self !! plugin = None).
  { destruct (pluginMap self !! plugin) as [q|] eqn:Hq; [|reflexivity].
    exfalso. apply Habs. apply (proj2 (proj2 Hok)) in Hq as [Hin <-]. now apply in_map. }
  rewrite activateAddon_run.
  destruct (existsb _ (plugins self)) eqn:Hex.
  { exfalso. apply Habs. exact (existsb_name_In _ _ Hex). }
  rewrite Hc, Hp. cbn [st]. rewrite deactivateAddon_run.
  cbn [set_pluginMap set_plugins plugins pluginMap pyload].
  rewrite (find_addon_last plugin (plugins self) p Hpn), Hun. cbn zeta.
  rewrite (list_remove_fresh_last p (plugins self) Hfresh).
  rewrite Hpn, Hcn, lookup_insert_eq.
  cbn [out st set_pluginMap set_plugins plugins pluginMap].
  split; [reflexivity|]. split; [reflexivity|].
  apply delete_insert_id. exact Hnone.
Qed.

(** ** Configuration changes through the bus *)

Lemma guarded_call_exact event f args s :
  try_except (call_listener call_external f args)
             (fun e => log Warning (ErrorCallingHandler event f args e)) s =
  mkRun (Ok tt) (st (listener_body call_external f args s))
        (CallListener f args :: tr (listener_body call_external f args s) ++
         match out (listener_body call_external f args s) with
         | Ok _ => []
         | Raise e => [Log Warning (ErrorCallingHandler event f args e)]
         end).
Proof.
  unfold try_except, call_listener, bind, emit, log. cbn [out st tr app].
  destruct (out (listener_body call_external f args s)) as [[]|e]; cbn [out st tr app].
  - rewrite app_nil_r. reflexivity.
  - reflexivity.
Qed.

Lemma manageAddons_run plugin name value self :
  manageAddons plugin name value self =
  if bool_decide (name = VStr "activated")
  then (if truthy value then activateAddon plugin self else deactivateAddon plugin self)
  else mkRun (Ok tt) self [].
Proof.
  unfold manageAddons. destruct (bool_decide _); cbn [andb]; [|reflexivity].
  destruct (truthy value); reflexivity.
Qed.

(** X4.  On a manager whose only listener of ["pluginConfigChanged"] is
    [manageAddons], dispatching a configuration change never raises.  A
    change of a setting other than ["activated"] leaves the manager
    unchanged.  A change of ["activated"] runs [activateAddon] for a true
    value and [deactivateAddon] for a false one, and an exception of that
    run (a failing constructor or teardown) does not reach the
    configuration: it is logged as a warning by the bus. *)
Theorem config_change_drives_activation self plugin name value :
  events self !! "pluginConfigChanged" = Some [BoundManageAddons] ->
  let args := [VStr plugin; name; value] in
  let r := dispatchEvent call_external "pluginConfigChanged" args self in
  out r = Ok tt /\
  (name <> VStr "activated" ->
   st r = self /\ tr r = [CallListener BoundManageAddons args]) /\
  (name = VStr "activated" ->
   let m := if truthy value then activateAddon plugin else deactivateAddon plugin in
   st r = st (m self) /\
   tr r = CallListener BoundManageAddons args :: tr (m self) ++
          match out (m self) with
          | Ok _ => []
          | Raise e =>
              [Log Warning
                 (ErrorCallingHandler "pluginConfigChanged" BoundManageAddons args e)]
          end).
Proof.
  intros Hev args r. subst r.
  rewrite dispatchEvent_run, Hev. cbn [for_each].
  rewrite (bind_ok _ _ _ tt) by (rewrite guarded_call_exact; reflexivity).
  rewrite guarded_call_exact. cbn [out st tr ret]. rewrite app_nil_r.
  subst args. cbn [listener_body]. rewrite manageAddons_run.
  split; [reflexivity|]. split.
  - intros Hne. rewrite bool_decide_eq_false_2 by exact Hne. split; reflexivity.
  - intros ->. rewrite bool_decide_eq_true_2 by reflexivity.
    destruct (truthy value); split; reflexivity.
Qed.

(** ** Guarded dispatchers and the order of a dispatch *)

Lemma try_catch_run m self :
  out (try_catch m self) = Ok tt /\
  st (try_catch m self) = st (m self) /\
  tr (try_catch m self) =
  tr (m self) ++ match out (m self) with
                 | Ok _ => []
                 | Raise e => [Log Error (ErrorExecutingAddons e)]
                 end.
Proof.
  unfold try_catch, try_except, log, emit.
  destruct (out (m self)) as [[]|e] eqn:Ho; cbn [out st tr].
  - rewrite app_nil_r. repeat split. exact Ho.
  - repeat split.
Qed.

Lemma dispatchEvent_out event args self :
  out (dispatchEvent call_external event args self) = Ok tt.
Proof.
  rewrite dispatchEvent_run. destruct (events self !! event) as [l|]; [|reflexivity].
  apply (delivery_loop event args l self).
Qed.

Lemma lock_run {A} (m : M A) self :
  out (lock m self) = out (m self) /\
  st (lock m self) = st (m self) /\
  tr (lock m self) = Acquire :: tr (m self) ++ [Release].
Proof. repeat split. Qed.

(** A guarded loop whose body raises at [p]. *)
Lemma guarded_loop_aborts body event args self l1 p l2 e ev :
  plugins self = l1 ++ p :: l2 ->
  (forall q s, In q l1 -> out (body q s) = Ok tt /\ st (body q s) = s) ->
  (forall q, In q l1 -> trace_all (hook_event_of l1) (body q)) ->
  body p self = mkRun (Raise e) self [ev] ->
  let r := try_catch (for_plugins body ;;; dispatchEvent call_external event args) self in
  out r = Ok tt /\ st r = self /\
  exists pre, tr r = pre ++ [ev; Log Error (ErrorExecutingAddons e)] /\
              Forall (hook_event_of l1) pre.
Proof.
  intros Hpl Hret Htr Hp r. subst r.
  assert (Hloop : for_plugins body self =
                  mkRun (Raise e) self (tr (for_each l1 body self) ++ [ev])).
  { rewrite for_plugins_run, Hpl.
    rewrite (for_each_aborts l1 p l2 body self e Hret) by (rewrite Hp; reflexivity).
    rewrite Hp. reflexivity. }
  destruct (try_catch_run (for_plugins body ;;; dispatchEvent call_external event args) self)
    as (Ho & Hs & Ht).
  rewrite Ho, Hs, Ht.
  rewrite (bind_raise _ _ self e) by (rewrite Hloop; reflexivity).
  rewrite Hloop. cbn [out st tr]. repeat split.
  exists (tr (for_each l1 body self)). split.
  - rewrite <- app_assoc. reflexivity.
  - apply trace_all_for_each. exact Htr.
Qed.

(** X5.  [coreReady], [coreExiting] and [downloadFailed] never raise.
    When the inline hook of an activated plugin [p] raises (the plugins
    before it returning), the call still returns normally and leaves the
    manager unchanged; the trace ends with the call on [p] and one error
    record carrying the exception (then the release of the lock, for
    [downloadFailed]): no later plugin is called and the event of the same
    name is not fired. *)
Theorem guarded_dispatchers_contain_failures self h arg l1 p l2 e :
  In h [Hook.coreReady; Hook.coreExiting; Hook.downloadFailed] ->
  let args := match h with Hook.downloadFailed => [arg] | _ => [] end in
  plugins self = l1 ++ p :: l2 ->
  Forall (fun q => isActivated q = true -> method q h args = Ok tt) l1 ->
  isActivated p = true ->
  (h = Hook.downloadFailed -> str_in "downloadFailed" (__threaded__ p) = false) ->
  method p h args = Raise e ->
  let r := dispatcher call_external h arg self in
  (forall self', out (dispatcher call_external h arg self') = Ok tt) /\
  st r = self /\
  exists pre,
    Forall (hook_event_of l1) pre /\
    tr r = match h with
           | Hook.downloadFailed =>
               Acquire :: pre ++ [Invoke p h args; Log Error (ErrorExecutingAddons e);
                                  Release]
           | _ => pre ++ [Invoke p h args; Log Error (ErrorExecutingAddons e)]
           end.
Proof.
  intros Hh args Hpl Hl1 Hact Hthr Hp.
  assert (Hret : forall q, In q l1 -> isActivated q = true -> method q h args = Ok tt).
  { intros q Hq. exact (proj1 (List.Forall_forall _ _) Hl1 q Hq). }
  destruct Hh as [<-|[<-|[<-|[]]]]; subst args; cbn [dispatcher];
    unfold coreReady, coreExiting, downloadFailed.
  - cbn zeta. split; [intros self'; apply try_catch_run|].
    destruct (guarded_loop_aborts
                (fun plugin => if isActivated plugin
                               then call_hook plugin Hook.coreReady [] else ret tt)
                "coreReady" [] self l1 p l2 e (Invoke p Hook.coreReady []) Hpl)
      as (_ & Hs & pre & Ht & Hpre).
    + intros q s Hq.
      exact (guarded_body_returns false q _ Hook.coreReady [] s (Hret q Hq)).
    + intros q Hq.
      exact (guarded_body_trace false l1 q Hook.coreReady Hook.coreReady [] Hq).
    + rewrite Hact, call_hook_run, Hp. reflexivity.
    + split; [exact Hs|]. exists pre. split; assumption.
  - cbn zeta. split; [intros self'; apply try_catch_run|].
    destruct (guarded_loop_aborts
                (fun plugin => if isActivated plugin
                               then call_hook plugin Hook.coreExiting [] else ret tt)
                "coreExiting" [] self l1 p l2 e (Invoke p Hook.coreExiting []) Hpl)
      as (_ & Hs & pre & Ht & Hpre).
    + intros q s Hq.
      exact (guarded_body_returns false q _ Hook.coreExiting [] s (Hret q Hq)).
    + intros q Hq.
      exact (guarded_body_trace false l1 q Hook.coreExiting Hook.coreExiting [] Hq).
    + rewrite Hact, call_hook_run, Hp. reflexivity.
    + split; [exact Hs|]. exists pre. split; assumption.
  - cbn zeta.
    split; [intros self'; rewrite (proj1 (lock_run _ self')); apply try_catch_run|].
    destruct (guarded_loop_aborts
                (fun plugin =>
                   if isActivated plugin
                   then (if str_in "downloadFailed" (__threaded__ plugin)
                         then startThread plugin Hook.downloadFinished [arg]
                         else call_hook plugin Hook.downloadFailed [arg])
                   else ret tt)
                "downloadFailed" [arg] self l1 p l2 e (Invoke p Hook.downloadFailed [arg])
                Hpl)
      as (_ & Hs & pre & Ht & Hpre).
    + intros q s Hq.
      exact (guarded_body_returns _ q _ Hook.downloadFinished [arg] s (Hret q Hq)).
    + intros q Hq. exact (guarded_body_trace _ l1 q _ _ [arg] Hq).
    + rewrite Hact, (Hthr eq_refl), call_hook_run, Hp. reflexivity.
    + rewrite (proj1 (proj2 (lock_run _ self))), (proj2 (proj2 (lock_run _ self))).
      split; [exact Hs|]. exists pre. split; [exact Hpre|].
      etransitivity;
        [apply (f_equal (fun t => Acquire :: t ++ [Release])); exact Ht|].
      rewrite <- app_assoc. reflexivity.
Qed.

Lemma for_each_all_return {A} (l : list A) body steps self :
  (forall q s, In q l -> body q s = mkRun (Ok tt) s (steps q)) ->
  for_each l body self = mkRun (Ok tt) self (List.flat_map steps l).
Proof.
  revert self. induction l as [|x l IH]; intros self Hb; [reflexivity|].
  cbn [for_each List.flat_map].
  rewrite (bind_ok _ _ _ tt) by (rewrite Hb by (now left); reflexivity).
  rewrite Hb by (now left). cbn [out st tr].
  rewrite IH by (intros q s Hq; apply Hb; now right). reflexivity.
Qed.

Lemma flat_map_active (step : Addon -> Event) l :
  List.flat_map (fun q => if isActivated q then [step q] else []) l =
  map step (filter (fun x => isActivated x = true) l).
Proof.
  induction l as [|x l IH]; [reflexivity|].
  cbn [List.flat_map]. rewrite IH, filter_cons.
  destruct (isActivated x) eqn:Hx.
  - rewrite decide_True by reflexivity. reflexivity.
  - rewrite decide_False by discriminate. reflexivity.
Qed.

(** A lock-decorated dispatcher all of whose inline hooks return. *)
Lemma locked_loop_completes body (step : Addon -> Event) event args self :
  (forall q s, In q (plugins self) ->
               body q s = mkRun (Ok tt) s (if isActivated q then [step q] else [])) ->
  let r := lock (for_plugins body ;;; dispatchEvent call_external event args) self in
  let fired := dispatchEvent call_external event args self in
  out r = Ok tt /\ st r = st fired /\
  tr r = Acquire :: map step (activePlugins self) ++ tr fired ++ [Release].
Proof.
  intros Hb r fired. subst r fired.
  assert (Hloop : for_plugins body self =
                  mkRun (Ok tt) self (map step (activePlugins self))).
  { rewrite for_plugins_run.
    rewrite (for_each_all_return _ body
               (fun q => if isActivated q then [step q] else []) self Hb).
    rewrite flat_map_active. reflexivity. }
  destruct (lock_run (for_plugins body ;;; dispatchEvent call_external event args) self)
    as (Ho & Hs & Ht).
  rewrite Ho, Hs, Ht.
  rewrite (bind_ok _ _ self tt) by (rewrite Hloop; reflexivity).
  rewrite Hloop. cbn [out st tr].
  split; [apply dispatchEvent_out|]. split; [reflexivity|].
  rewrite <- app_assoc. reflexivity.
Qed.

(** X6.  When the inline hooks return, the dispatchers of
    [downloadPreparing], [downloadFinished], [packageFinished] and
    [afterReconnecting] take the lock, visit exactly the activated plugins
    in the order of the plugins list (submitting the hook to a thread for
    a plugin that declares it threaded, calling it inline otherwise), then
    fire the event of the same name with the same argument, release the
    lock and return normally. *)
Theorem dispatcher_visits_in_index_order self h arg :
  In h [Hook.downloadPreparing; Hook.downloadFinished;
        Hook.packageFinished; Hook.afterReconnecting] ->
  (forall q, In q (plugins self) -> isActivated q = true -> submits h q = false ->
             method q h [arg] = Ok tt) ->
  let r := dispatcher call_external h arg self in
  let fired := dispatchEvent call_external (Hook.name h) [arg] self in
  out r = Ok tt /\ st r = st fired /\
  tr r = Acquire
         :: map (fun p => if submits h p then AddonThread p h [arg] else Invoke p h [arg])
                (activePlugins self)
         ++ tr fired ++ [Release].
Proof.
  intros Hh Hret.
  destruct Hh as [<-|[<-|[<-|[<-|[]]]]]; cbn [dispatcher Hook.name];
    unfold downloadPreparing, downloadFinished, packageFinished, afterReconnecting;
    apply locked_loop_completes; intros q s Hq;
    specialize (Hret q Hq); cbn [submits Hook.name] in *;
    destruct (isActivated q); try reflexivity;
    try (destruct (str_in _ (__threaded__ q)); [reflexivity|]);
    rewrite call_hook_run, Hret by reflexivity; reflexivity.
Qed.

(** ** Registration in the RPC table *)

Lemma contains_char_append sep s t :
  contains_char sep (String.append s t) = contains_char sep s || contains_char sep t.
Proof.
  induction s as [|c s IH]; [reflexivity|].
  change (String.append (String c s) t) with (String c (String.append s t)).
  cbn [contains_char]. destruct (decide (c = sep)); [reflexivity | exact IH].
Qed.

Lemma rpartition_tail_no_sep sep s :
  contains_char sep s = false -> rpartition_tail sep s = s.
Proof.
  destruct s as [|c s]; [reflexivity|]. cbn [contains_char rpartition_tail].
  destruct (decide (c = sep)); [discriminate|]. intros ->. reflexivity.
Qed.

Lemma rpartition_tail_suffix sep pre name :
  contains_char sep name = false ->
  rpartition_tail sep (String.append pre (String sep name)) = name.
Proof.
  intros Hn. induction pre as [|c pre IH].
  - change (String.append "" (String sep name)) with (String sep name).
    cbn [rpartition_tail]. rewrite Hn. rewrite decide_True by reflexivity. reflexivity.
  - change (String.append (String c pre) (String sep name))
      with (String c (String.append pre (String sep name))).
    cbn [rpartition_tail]. rewrite contains_char_append. cbn [contains_char].
    rewrite decide_True by reflexivity. rewrite orb_true_r. exact IH.
Qed.

Lemma addRPC_run plugin func doc self :
  addRPC plugin func doc self =
  mkRun (Ok tt)
        (set_methods
           (<[rpartition_tail "."%char plugin :=
                <[func := match doc with Some d => strip d | None => "" end]>
                  (default ∅ (methods self !! rpartition_tail "."%char plugin))]>
              (methods self)) self) [].
Proof.
  unfold addRPC, bind, get, modify. cbn [out st tr app].
  assert (Hdoc : match doc with
                 | Some d => if truthy (VStr d) then strip d else ""
                 | None => ""
                 end = match doc with Some d => strip d | None => "" end).
  { destruct doc as [[|c d]|]; reflexivity. }
  rewrite Hdoc.
  destruct (methods self !! rpartition_tail "."%char plugin); cbn [default];
    [reflexivity|].
  rewrite insert_empty. reflexivity.
Qed.

(** X7.  [addRPC] files a method under the short name of the plugin, the
    part of the dotted module path after its last dot (the whole name when
    it has no dot).  It never raises and touches nothing but the table.
    Afterwards the table of that short name maps the method to the
    description stripped of the white space of Python 3 at both ends (the
    empty string for a missing description), replacing
    an earlier description of the same method, and keeps the other methods
    of the plugin and the tables of all other plugins. *)
Theorem addRPC_registers_under_short_name plugin name func doc self :
  contains_char "."%char name = false ->
  plugin = name \/ (exists pre, plugin = String.append pre (String "."%char name)) ->
  let r := addRPC plugin func doc self in
  out r = Ok tt /\ tr r = [] /\
  plugins (st r) = plugins self /\ pluginMap (st r) = pluginMap self /\
  events (st r) = events self /\
  (exists table,
      methods (st r) !! name = Some table /\
      table !! func = Some (match doc with Some d => strip d | None => "" end) /\
      forall f, f <> func -> table !! f = methods self !! name ≫= (fun t => t !! f)) /\
  (forall other, other <> name -> methods (st r) !! other = methods self !! other).
Proof.
  intros Hname Hplugin r. subst r. rewrite addRPC_run.
  assert (Hshort : rpartition_tail "."%char plugin = name).
  { destruct Hplugin as [->|[pre ->]];
      [apply rpartition_tail_no_sep | apply rpartition_tail_suffix]; exact Hname. }
  rewrite Hshort. cbn [out st tr set_methods plugins pluginMap events methods].
  repeat (split; [reflexivity|]). split.
  - eexists. split; [apply lookup_insert_eq|]. split; [apply lookup_insert_eq|].
    intros f Hf. rewrite lookup_insert_ne by congruence.
    destruct (methods self !! name); [reflexivity | apply lookup_empty].
  - intros other Hother. apply lookup_insert_ne. congruence.
Qed.

(** ** The info queries *)

(** X8.  [getInfo(name)] is the entry of [name] in [getAllInfo()], or the
    empty dict when there is none.  [getAllInfo()] has an entry exactly for
    the keys of [pluginMap] whose instance has a non-empty [info]; the
    entry has the keys of that [info], keeps a string value as it is and
    holds [str] of any other value. *)
Theorem getInfo_is_entry_of_getAllInfo self name :
  getInfo py_str name self = default ∅ (getAllInfo py_str self !! name) /\
  (forall m, getAllInfo py_str self !! name = Some m <->
             exists p, pluginMap self !! name = Some p /\ info p <> ∅ /\
                       m = info_str py_str <$> info p) /\
  (forall m k, getAllInfo py_str self !! name = Some m ->
     m <> ∅ /\
     exists p, pluginMap self !! name = Some p /\
       m !! k = match info p !! k with
                | Some (VStr s) => Some s
                | Some v => Some (py_str v)
                | None => None
                end).
Proof.
  unfold getInfo, getAllInfo. rewrite lookup_omap.
  destruct (pluginMap self !! name) as [p|] eqn:Hp; cbn.
  - destruct (bool_decide (info p = ∅)) eqn:Hinfo.
    + apply bool_decide_eq_true in Hinfo.
      split; [reflexivity|]. split.
      * intros m. split; [discriminate|].
        intros (q & Hq & Hne & _). injection Hq as <-. contradiction.
      * intros m k H. discriminate H.
    + apply bool_decide_eq_false in Hinfo.
      split; [reflexivity|]. split.
      * intros m. split.
        -- intros H. injection H as <-. exists p. repeat split. exact Hinfo.
        -- intros (q & Hq & _ & ->). injection Hq as <-. reflexivity.
      * intros m k H. injection H as <-. split.
        -- intros Habs. apply fmap_empty_inv in Habs. contradiction.
        -- exists p. split; [reflexivity|]. rewrite lookup_fmap.
           destruct (info p !! k) as [[]|]; reflexivity.
  - split; [reflexivity|]. split.
    + intros m. split; [discriminate|]. intros (q & Hq & _). discriminate Hq.
    + intros m k H. discriminate H.
Qed.

(** ** What [createIndex] builds and records *)

Lemma createIndex_loop_only names :
  forall loc self,
  let r := createIndex_loop names loc self in
  forall locf p, out r = Ok locf -> In p (l_plugins locf) ->
    In p (l_plugins loc) \/
    exists n c, In n names /\ instantiated (pyload self) n c p.
Proof.
  induction names as [|n names IH]; intros loc self r; subst r.
  - cbn. intros locf p H. injection H as <-. now left.
  - destruct (createIndex_iteration n loc self) as (loc' & Ho & Hpy & _ & Hcase).
    cbn [createIndex_loop]. rewrite (bind_ok _ _ _ loc' Ho). cbn [out st tr].
    match goal with |- context [createIndex_loop names loc' ?s1] =>
      set (s' := s1) in *; pose proof (IH loc' s') as IHonly
    end.
    cbn zeta in IHonly. rewrite Hpy in IHonly.
    intros locf p Hout Hp.
    destruct (IHonly locf p Hout Hp) as [Hin|(m & c & Hm' & Hinst)].
    + destruct Hcase as [(c & q & Hi & Hl & _)|(_ & Hl & _)]; rewrite Hl in Hin.
      * apply in_app_or in Hin as [Hin|[<-|[]]]; [now left|].
        right. exists n, c. split; [now left | exact Hi].
      * now left.
    + right. exists m, c. split; [now right | exact Hinst].
Qed.

(** X9.  [createIndex] never raises, whatever the configuration, the
    loader and the constructors do.  Afterwards the plugins list holds
    exactly the instances of the known plugin names that the configuration
    marks active and that load and construct: what the list held before is
    dropped. *)
Theorem createIndex_never_raises self :
  let r := createIndex self in
  out r = Ok tt /\
  (forall p, In p (plugins (st r)) <->
             exists n c, In n (addonPlugins (pyload self)) /\
                         instantiated (pyload self) n c p).
Proof.
  intros r. subst r.
  destruct (createIndex_loop_spec (addonPlugins (pyload self)) (mkLocals [] [] []) self)
    as (locf & Ho & _ & _ & _ & Hnew & _).
  pose proof (createIndex_loop_only (addonPlugins (pyload self)) (mkLocals [] [] []) self)
    as Honly.
  rewrite createIndex_run. cbn zeta in Honly |- *. rewrite Ho.
  cbn [out st tr set_plugins plugins].
  split; [reflexivity|].
  intros p. split.
  - intros Hp. destruct (Honly locf p Ho Hp) as [[]|H]. exact H.
  - intros (n & c & Hn & Hinst). apply (Hnew n c p Hn Hinst).
Qed.

(** ** RPC after deactivation *)

(** X10.  Once [deactivateAddon] has returned on a well-formed index, the
    plugin can no longer be reached through [callRPC]: the call raises
    [KeyError] for every method name and argument list, although the RPC
    table still holds whatever was registered for the plugin. *)
Theorem deactivated_plugin_not_callable plugin self func args :
  index_ok self ->
  let r := deactivateAddon plugin self in
  out r = Ok tt ->
  callRPC literal_eval plugin func args false (st r) =
    mkRun (Raise (KeyError plugin)) (st r) [] /\
  methods (st r) = methods self.
Proof.
  intros Hok r Hout. subst r.
  assert (Hgone : pluginMap (st (deactivateAddon plugin self)) !! plugin = None).
  { destruct (find_addon plugin (plugins self)) as [addon|] eqn:Hfind.
    - destruct (unload addon) as [[]|e] eqn:Hun.
      + destruct (deactivateAddon_ok_run plugin self addon Hok Hfind Hun)
          as (l1 & l2 & _ & ->).
        cbn [st set_pluginMap pluginMap]. apply lookup_delete_eq.
      + rewrite deactivateAddon_run, Hfind, Hun in Hout. discriminate Hout.
    - rewrite deactivateAddon_run, Hfind. cbn [st].
      destruct (pluginMap self !! plugin) as [p|] eqn:Hp; [|reflexivity].
      apply (proj2 (proj2 Hok)) in Hp as [Hin Hn].
      assert (Hpresent : In plugin (map __name__ (plugins self)))
        by (rewrite <- Hn; now apply in_map).
      destruct (find_addon_present _ _ Hpresent) as [a Ha]. congruence. }
  split; [|apply deactivateAddon_methods].
  rewrite callRPC_run, Hgone. reflexivity.
Qed.

(** ** Registering and unregistering listeners *)

Lemma list_remove_snoc_fresh (func : Listener) l :
  ~ In func l ->
  list_remove (fun g => bool_decide (g = func)) (l ++ [func]) = Some l.
Proof.
  induction l as [|g l IH]; intros Hnew; cbn [app list_remove].
  - rewrite bool_decide_eq_true_2 by reflexivity. reflexivity.
  - rewrite bool_decide_eq_false_2 by (intros ->; apply Hnew; now left).
    rewrite IH; [reflexivity|]. intros Hin. apply Hnew. now right.
Qed.

Lemma list_remove_nodup (func : Listener) l :
  NoDup l -> In func l ->
  list_remove (fun g => bool_decide (g = func)) l = Some (filter (fun g => g <> func) l).
Proof.
  induction l as [|g l IH]; intros Hnd Hin; [destruct Hin|].
  apply NoDup_cons in Hnd as [Hg Hnd]. cbn [list_remove]. rewrite filter_cons.
  destruct (decide (g = func)) as [->|Hne].
  - rewrite bool_decide_eq_true_2 by reflexivity.
    rewrite decide_False by (intros H; now apply H). f_equal.
    clear IH Hin Hnd. induction l as [|h l IH]; [reflexivity|].
    apply not_elem_of_cons in Hg as [Hne Hg]. rewrite filter_cons.
    rewrite decide_True by congruence. f_equal. apply IH, Hg.
  - rewrite bool_decide_eq_false_2 by exact Hne.
    rewrite decide_True by exact Hne.
    destruct Hin as [Heq|Hin]; [contradiction|].
    rewrite (IH Hnd Hin). reflexivity.
Qed.

Lemma filter_absent (func : Listener) l :
  ~ In func l -> filter (fun g => g <> func) l = l.
Proof.
  induction l as [|g l IH]; intros Hnew; [reflexivity|].
  rewrite filter_cons. rewrite decide_True by (intros ->; apply Hnew; now left).
  f_equal. apply IH. intros Hin. apply Hnew. now right.
Qed.

Lemma listener_calls_dispatch event args self :
  listener_calls (tr (dispatchEvent call_external event args self)) =
  map (fun f => (f, args)) (default [] (events self !! event)).
Proof.
  rewrite dispatchEvent_run. destruct (events self !! event) as [l|]; [|reflexivity].
  apply (delivery_loop event args l self).
Qed.

(** X11.  Registering a listener that was not registered for the event and
    unregistering it again never raises and restores the listener list; the
    only trace it leaves is that an event without a list now has an empty
    one, on which [dispatchEvent] does nothing.  The lists of the other
    events are never touched. *)
Theorem addEvent_then_removeEvent event func self :
  (forall l, events self !! event = Some l -> ~ In func l) ->
  let r := removeEvent event func (st (addEvent event func self)) in
  out r = Ok tt /\ tr r = [] /\
  events (st r) !! event = Some (default [] (events self !! event)) /\
  (forall other, other <> event -> events (st r) !! other = events self !! other) /\
  (is_Some (events self !! event) -> st r = self) /\
  (forall args,
      events self !! event = None ->
      dispatchEvent call_external event args (st r) = mkRun (Ok tt) (st r) []).
Proof.
  intros Hnew r. subst r. rewrite addEvent_run. cbn [st].
  destruct (events self !! event) as [l|] eqn:Hev.
  - unfold listener_in.
    rewrite bool_decide_eq_false_2
      by (intros H; apply (Hnew l eq_refl); apply list_elem_of_In; exact H).
    rewrite removeEvent_run. cbn [set_events events].
    rewrite lookup_insert_eq. unfold listener_in.
    rewrite bool_decide_eq_true_2
      by (apply elem_of_app; right; apply list_elem_of_singleton; reflexivity).
    rewrite (list_remove_snoc_fresh func l (Hnew l eq_refl)).
    cbn [out st tr set_events events default]. rewrite insert_insert_eq.
    split; [reflexivity|]. split; [reflexivity|].
    split; [apply lookup_insert_eq|].
    split; [intros other Hne; apply lookup_insert_ne; congruence|].
    split; [|intros args H; discriminate H].
    intros _. rewrite insert_id by exact Hev. destruct self. reflexivity.
  - rewrite removeEvent_run. cbn [set_events events].
    rewrite lookup_insert_eq. unfold listener_in.
    rewrite bool_decide_eq_true_2 by (apply list_elem_of_singleton; reflexivity).
    cbn [list_remove]. rewrite bool_decide_eq_true_2 by reflexivity.
    cbn [out st tr set_events events default]. rewrite insert_insert_eq.
    split; [reflexivity|]. split; [reflexivity|].
    split; [apply lookup_insert_eq|].
    split; [intros other Hne; apply lookup_insert_ne; congruence|].
    split; [intros [? H]; discriminate H|].
    intros args _. rewrite dispatchEvent_run. cbn [events set_events].
    rewrite lookup_insert_eq. reflexivity.
Qed.

(** X12.  With duplicate-free listener lists, [removeEvent] never raises,
    and afterwards [dispatchEvent] no longer calls the removed listener
    while the remaining listeners of the event are still called, in their
    registration order. *)
Theorem removeEvent_stops_delivery event func self args :
  events_nodup self ->
  let r := removeEvent event func self in
  out r = Ok tt /\
  count_calls func (tr (dispatchEvent call_external event args (st r))) = 0 /\
  listener_calls (tr (dispatchEvent call_external event args (st r))) =
  map (fun g => (g, args))
      (filter (fun g => g <> func) (default [] (events self !! event))).
Proof.
  intros Hnd r. subst r.
  assert (Hlist : out (removeEvent event func self) = Ok tt /\
                  default [] (events (st (removeEvent event func self)) !! event) =
                  filter (fun g => g <> func) (default [] (events self !! event))).
  { rewrite removeEvent_run.
    destruct (events self !! event) as [l|] eqn:Hev; [|cbn; rewrite Hev; split; reflexivity].
    unfold listener_in. destruct (bool_decide (func ∈ l)) eqn:Hin.
    - apply bool_decide_eq_true in Hin. apply list_elem_of_In in Hin.
      rewrite (list_remove_nodup func l (Hnd event l Hev) Hin).
      cbn [out st set_events events]. rewrite lookup_insert_eq. split; reflexivity.
    - apply bool_decide_eq_false in Hin. cbn [out st]. rewrite Hev. cbn [default].
      split; [reflexivity|]. symmetry. apply filter_absent.
      intros H. apply Hin. apply list_elem_of_In. exact H. }
  destruct Hlist as [Hout Hlist]. split; [exact Hout|].
  unfold count_calls. rewrite listener_calls_dispatch, Hlist.
  split; [|reflexivity]. clear Hlist.
  induction (default [] (events self !! event)) as [|g l IH]; [reflexivity|].
  rewrite filter_cons. destruct (decide (g <> func)) as [Hne|Heq]; [|exact IH].
  cbn [map List.filter fst]. rewrite bool_decide_eq_false_2 by exact Hne. exact IH.
Qed.

(** X13.  A listener registered with [addEvent] that was not yet
    registered for the event is called by [dispatchEvent] after all the
    listeners registered before it, which are called as before. *)
Theorem new_listener_is_called_last event func self args :
  (forall l, events self !! event = Some l -> ~ In func l) ->
  listener_calls
    (tr (dispatchEvent call_external event args (st (addEvent event func self)))) =
  listener_calls (tr (dispatchEvent call_external event args self)) ++ [(func, args)].
Proof.
  intros Hnew. rewrite !listener_calls_dispatch, addEvent_run. cbn [st].
  destruct (events self !! event) as [l|] eqn:Hev.
  - unfold listener_in.
    rewrite bool_decide_eq_false_2
      by (intros H; apply (Hnew l eq_refl); apply list_elem_of_In; exact H).
    cbn [set_events events]. rewrite lookup_insert_eq.
    cbn [default from_option id]. rewrite map_app. reflexivity.
  - cbn [set_events events]. rewrite lookup_insert_eq. reflexivity.
Qed.

End Properties.

(** * The methods run on concrete managers *)

Import Scenario.

(** C1.  On a manager whose only plugin [Foo] is activated and declares
    ["downloadFailed"] in [__threaded__], [downloadFailed(pyfile)] submits
    [Foo.downloadFinished], not [Foo.downloadFailed], to the thread. *)
Theorem downloadFailed_threaded_submits_downloadFinished :
  let self := manager_of [Foo] in
  let r := downloadFailed call_external pyfile self in
  plugins self = [Foo] /\ isActivated Foo = true /\
  In "downloadFailed" (__threaded__ Foo) /\
  tr r = [Acquire; AddonThread Foo Hook.downloadFinished [pyfile]; Release] /\
  ~ In (AddonThread Foo Hook.downloadFailed [pyfile]) (tr r).
Proof.
  assert (Ht : tr (downloadFailed call_external pyfile (manager_of [Foo])) =
               [Acquire; AddonThread Foo Hook.downloadFinished [pyfile]; Release])
    by (vm_compute; reflexivity).
  cbn zeta. rewrite Ht.
  split; [reflexivity|]. split; [reflexivity|]. split; [now left|].
  split; [reflexivity|].
  intros [H|[H|[H|[]]]]; discriminate H.
Qed.

(** C2 fails as stated: after [Foo] is activated, registers its method
    [bar] and is deactivated without error, the index no longer holds
    ["Foo"] and the RPC table still holds its entry. *)
Lemma deactivated_plugin_keeps_rpc_entries :
  let s0 := mkAddonManager core [] ∅ ∅ ∅ in
  let s1 := st (activateAddon "Foo" s0) in
  let s2 := st (addRPC "pyload.plugin.addon.Foo" "bar" (Some "adds two numbers") s1) in
  let r := deactivateAddon "Foo" s2 in
  In "Foo" (index_names s2) /\
  out r = Ok tt /\
  ~ In "Foo" (index_names (st r)) /\
  pluginMap (st r) !! "Foo" = None /\
  methods (st r) !! "Foo" = Some {[ "bar" := "adds two numbers" ]}.
Proof.
  cbn zeta.
  split; [vm_compute; now left|].
  split; [vm_compute; reflexivity|].
  split; [vm_compute; intros []|].
  split; vm_compute; reflexivity.
Qed.

(** C3 fails as stated: [bar] was never registered in the RPC table, yet
    [callRPC] calls it and returns its result; and with [parse] set, an
    argument that is not a literal decides the exception although the
    plugin is not active. *)
Lemma callRPC_ignores_rpc_table :
  let self := manager_of [Foo] in
  let r := callRPC literal_eval "Foo" "bar" [VStr "1"; VStr "2"] true self in
  let r' := callRPC literal_eval "Unknown" "bar" [VStr "1 2"] true self in
  methods self !! "Foo" = None /\
  out r = Ok (VInt 3) /\
  tr r = [CallAttr Foo "bar" [VInt 1; VInt 2]] /\
  pluginMap self !! "Unknown" = None /\
  out r' = Raise (ValueError "malformed node or string").
Proof.
  cbn zeta. repeat split; vm_compute; reflexivity.
Qed.

(** C4 fails as stated: the teardown of [X] raises, the exception leaves
    [deactivateAddon] without being logged, and [X] is still in the
    plugins list and in [pluginMap]. *)
Lemma deactivateAddon_stops_at_failing_teardown :
  let self := manager_of [X] in
  let r := deactivateAddon "X" self in
  In "X" (index_names self) /\
  unload X = Raise (Exception "teardown failed") /\
  out r = Raise (Exception "teardown failed") /\
  tr r = [Log Debug (PluginUnloaded "X"); Unload X] /\
  In "X" (index_names (st r)) /\
  pluginMap (st r) !! "X" = Some X.
Proof.
  cbn zeta.
  split; [vm_compute; now left|].
  split; [reflexivity|].
  split; [vm_compute; reflexivity|].
  split; [vm_compute; reflexivity|].
  split; [vm_compute; now left|].
  vm_compute; reflexivity.
Qed.

(** C5 fails as stated: [Bad] and [Good] are both activated and not
    threaded; the exception of [Bad.downloadFinished] is not caught, it
    reaches the caller of [downloadFinished], and [Good.downloadFinished]
    is never called. *)
Lemma downloadFinished_aborts_on_failing_plugin :
  let self := manager_of [Bad; Good] in
  let r := downloadFinished call_external pyfile self in
  plugins self = [Bad; Good] /\ isActivated Good = true /\
  out r = Raise (Exception "hook failed") /\
  tr r = [Acquire; Invoke Bad Hook.downloadFinished [pyfile]; Release] /\
  ~ In (Invoke Good Hook.downloadFinished [pyfile]) (tr r).
Proof.
  assert (Ht : tr (downloadFinished call_external pyfile (manager_of [Bad; Good])) =
               [Acquire; Invoke Bad Hook.downloadFinished [pyfile]; Release])
    by (vm_compute; reflexivity).
  cbn zeta. rewrite Ht.
  split; [reflexivity|]. split; [reflexivity|].
  split; [vm_compute; reflexivity|]. split; [reflexivity|].
  intros [H|[H|[H|[]]]]; discriminate H.
Qed.

(** C9 fails as stated: [beforeReconnecting] takes the lock. *)
Lemma beforeReconnecting_takes_the_lock :
  let r := beforeReconnecting call_external pyfile (manager_of [Good]) in
  tr r = [Acquire; Invoke Good Hook.beforeReconnecting [pyfile]; Release] /\
  In Acquire (tr r).
Proof.
  assert (Ht : tr (beforeReconnecting call_external pyfile (manager_of [Good])) =
               [Acquire; Invoke Good Hook.beforeReconnecting [pyfile]; Release])
    by (vm_compute; reflexivity).
  cbn zeta. rewrite Ht. split; [reflexivity | now left].
Qed.

(** The amended C3 at work: the spec's scenario of [bar] on the parsed
    literals, a malformed argument, and an inactive plugin. *)
Lemma callRPC_outcomes_witness :
  out (callRPC literal_eval "Foo" "bar" [VStr "1"; VStr "2"] true (manager_of [Foo]))
  = Ok (VInt 3) /\
  out (callRPC literal_eval "Foo" "bar" [VStr "1"; VStr "x"] true (manager_of [Foo]))
  = Raise (ValueError "malformed node or string") /\
  out (callRPC literal_eval "Unknown" "bar" [] false (manager_of [Foo]))
  = Raise (KeyError "Unknown").
Proof.
  split; [|split].
  - destruct (callRPC_outcomes literal_eval (manager_of [Foo]) "Foo" "bar"
                [VStr "1"; VStr "2"] true) as (_ & _ & _ & H).
    assert (Hargs : Forall2 (fun x v => literal_eval x = Ok v)
                            [VStr "1"; VStr "2"] [VInt 1; VInt 2]).
    { repeat constructor. }
    exact (proj1 (H [VInt 1; VInt 2] (or_intror (conj eq_refl Hargs)))).
  - destruct (callRPC_outcomes literal_eval (manager_of [Foo]) "Foo" "bar"
                [VStr "1"; VStr "x"] true) as (_ & _ & H & _).
    refine (proj1 (H [VStr "1"] (VStr "x") [] _ eq_refl eq_refl _ eq_refl)).
    repeat constructor. exists (VInt 1). reflexivity.
  - destruct (callRPC_outcomes literal_eval (manager_of [Foo]) "Unknown" "bar"
                [] false) as (_ & _ & _ & H).
    exact (proj1 (H [] (or_introl (conj eq_refl eq_refl)))).
Defined.

(** The amended C4 at work: [Foo], whose teardown returns, leaves the
    index. *)
Lemma deactivateAddon_teardown_witness :
  In "Foo" (index_names (manager_of [Foo])) /\
  ~ In "Foo" (index_names (st (deactivateAddon "Foo" (manager_of [Foo])))) /\
  pluginMap (st (deactivateAddon "Foo" (manager_of [Foo]))) !! "Foo" = None.
Proof.
  assert (Hin : In "Foo" (index_names (manager_of [Foo]))) by (now left).
  split; [exact Hin|].
  destruct (deactivateAddon_teardown "Foo" (manager_of [Foo]) Hin)
    as (addon & Hfind & _ & _ & H).
  vm_compute in Hfind. injection Hfind as <-.
  cbn [unload Foo] in H. destruct H as (Hmap & _ & Hnames).
  split; [|exact Hmap].
  apply Hnames; apply NoDup_singleton.
Defined.

(** The amended C5 at work: [Good] returns, [Bad] raises. *)
Lemma inline_hook_exception_propagates_witness :
  out (dispatcher call_external Hook.downloadFinished pyfile (manager_of [Good; Bad]))
  = Raise (Exception "hook failed").
Proof.
  refine (proj1 (inline_hook_exception_propagates call_external
                   (manager_of [Good; Bad]) Hook.downloadFinished pyfile
                   [Good] Bad [] (Exception "hook failed") _ _ _ _ _ _)).
  - right. now left.
  - reflexivity.
  - repeat constructor.
  - reflexivity.
  - intros _. reflexivity.
  - reflexivity.
Defined.

(** C6 at work: [manageAddons] fails on the teardown of [X], the warning
    is logged and the listener registered after it is still called. *)
Lemma dispatchEvent_delivers_in_order_witness :
  let self := mkAddonManager core [X] {[ "X" := X ]} ∅
                {[ "pluginConfigChanged" := [BoundManageAddons; External 2] ]} in
  let args := [VStr "X"; VStr "activated"; VBool false] in
  let r := dispatchEvent call_external "pluginConfigChanged" args self in
  out r = Ok tt /\
  In (Log Warning (ErrorCallingHandler "pluginConfigChanged" BoundManageAddons args
                     (Exception "teardown failed"))) (tr r) /\
  exists t1 t2 t3,
    tr r = t1 ++ CallListener BoundManageAddons args
              :: t2 ++ CallListener (External 2) args :: t3.
Proof.
  intros self args r.
  destruct (dispatchEvent_delivers_in_order call_external "pluginConfigChanged" args self)
    as [Ho H].
  change (events self !! "pluginConfigChanged")
    with (Some [BoundManageAddons; External 2]) in H.
  destruct H as (_ & _ & Hw & Hord).
  split; [exact Ho|]. split.
  - apply (Hw [] BoundManageAddons [External 2] (Exception "teardown failed"));
      [reflexivity|].
    vm_compute. reflexivity.
  - apply (Hord [] BoundManageAddons [] (External 2) []). reflexivity.
Defined.

(** C7 at work on a manager without listeners. *)
Lemma addEvent_twice_removeEvent_absent_witness :
  let self := mkAddonManager core [] ∅ ∅ ∅ in
  let s1 := st (addEvent "E" (External 2) self) in
  events_nodup self /\
  count_calls (External 2)
    (tr (dispatchEvent call_external "E" [pyfile] (st (addEvent "E" (External 2) s1)))) = 1 /\
  removeEvent "E" (External 2) self = mkRun (Ok tt) self [].
Proof.
  intros self s1.
  assert (Hnd : events_nodup self).
  { intros event l H. cbn [events self] in H. rewrite lookup_empty in H. discriminate H. }
  destruct (addEvent_twice_removeEvent_absent call_external "E" (External 2) self)
    as (_ & Hcount & Hremove).
  split; [exact Hnd|]. split.
  - apply (Hcount Hnd [pyfile]).
  - apply Hremove. intros l H. cbn [events self] in H.
    rewrite lookup_empty in H. discriminate H.
Defined.





(** * The port forwarder *)

(** X14.  [forward] relays a stream: when the source delivers non-empty
    chunks and then the empty string, and the destination accepts what it
    is given, [forward] sends exactly those chunks, in order, shuts the
    write side of the destination down once, and returns; what the source
    would deliver after the empty string is never read. *)
Theorem forward_relays_until_end_of_stream chunks rest destination :
  Forall (fun c => c <> "") chunks ->
  (forall n c, Forwarder.sendall destination n c = Ok tt) ->
  Forwarder.shutdown destination = Ok tt ->
  Forwarder.forward (map Ok chunks ++ Ok "" :: rest) destination =
  (Forwarder.Returned, map Forwarder.SendAll chunks ++ [Forwarder.ShutdownWR]).
Proof.
  intros Hne Hsend Hshut. unfold Forwarder.forward. generalize 0.
  induction Hne as [|c chunks Hc _ IH]; intros sent.
  - cbn. rewrite Hshut. reflexivity.
  - cbn [map app Forwarder.forward_loop].
    assert (Ht : truthy (VStr c) = true).
    { cbn. destruct (String.eqb c "") eqn:He; [|reflexivity].
      apply String.eqb_eq in He. contradiction. }
    rewrite Ht, Hsend, IH. reflexivity.
Qed.

(** What [forward] has done when it stops.  The data sent are, in order,
    the non-empty chunks that the source delivered first; [sent] counts
    the [sendall] calls made before the loop is entered. *)
Lemma forward_loop_spec source destination :
  forall sent,
  exists chunks rest,
    source = map Ok chunks ++ rest /\
    Forall (fun c => c <> "") chunks /\
    let (o, t) := Forwarder.forward_loop sent source destination in
    match o with
    | Forwarder.Returned =>
        t = map Forwarder.SendAll chunks ++ [Forwarder.ShutdownWR] /\
        (exists rest', rest = Ok "" :: rest') /\
        Forwarder.shutdown destination = Ok tt
    | Forwarder.Blocked => t = map Forwarder.SendAll chunks /\ rest = []
    | Forwarder.Raised e =>
        (t = map Forwarder.SendAll chunks /\ exists rest', rest = Raise e :: rest') \/
        (t = map Forwarder.SendAll chunks /\
         exists pre c, chunks = pre ++ [c] /\
                       Forwarder.sendall destination (sent + length pre) c = Raise e) \/
        (t = map Forwarder.SendAll chunks ++ [Forwarder.ShutdownWR] /\
         (exists rest', rest = Ok "" :: rest') /\
         Forwarder.shutdown destination = Raise e)
    end.
Proof.
  induction source as [|[s|e] source IH]; intros sent.
  - exists [], []. split; [reflexivity|]. split; [constructor|]. cbn. split; reflexivity.
  - cbn [Forwarder.forward_loop].
    destruct (truthy (VStr s)) eqn:Ht.
    + assert (Hs : s <> "") by (intros ->; discriminate Ht).
      destruct (Forwarder.sendall destination sent s) as [u|e] eqn:Hsend.
      * destruct (IH (S sent)) as (chunks & rest & Hsrc & Hne & H).
        destruct (Forwarder.forward_loop (S sent) source destination) as [o t].
        exists (s :: chunks), rest.
        split; [rewrite Hsrc; reflexivity|]. split; [constructor; assumption|].
        destruct o as [|e|].
        -- destruct H as (-> & Hrest & Hshut). repeat split; assumption.
        -- destruct H as [(-> & Hrest)|[(-> & pre & c & -> & Hfail)|(-> & Hrest & Hshut)]].
           ++ left. split; [reflexivity | exact Hrest].
           ++ right. left. split; [reflexivity|].
              exists (s :: pre), c. split; [reflexivity|].
              cbn [length]. rewrite Nat.add_succ_r. exact Hfail.
           ++ right. right. repeat split; assumption.
        -- destruct H as (-> & ->). split; reflexivity.
      * exists [s], source. split; [reflexivity|].
        split; [repeat constructor; exact Hs|].
        right. left. split; [reflexivity|].
        exists [], s. split; [reflexivity|].
        cbn [length]. rewrite Nat.add_0_r. exact Hsend.
    + assert (Hs : s = "").
      { cbn in Ht. destruct (String.eqb s "") eqn:He; [|discriminate Ht].
        now apply String.eqb_eq. }
      subst s. exists [], (Ok "" :: source).
      split; [reflexivity|]. split; [constructor|].
      destruct (Forwarder.shutdown destination) as [[]|e] eqn:Hshut.
      * split; [reflexivity|]. split; [exists source; reflexivity | reflexivity].
      * right. right. split; [reflexivity|].
        split; [exists source; reflexivity | reflexivity].
  - exists [], (Raise e :: source). split; [reflexivity|]. split; [constructor|].
    cbn. left. split; [reflexivity|]. exists source. reflexivity.
Qed.

(** X15.  Whatever the sockets do, what [forward] has sent when it stops
    is, in order, exactly the non-empty chunks that the source delivered
    first, and [forward] stops at what the source delivers next.  It
    returns after shutting the destination down on the empty string.  It
    blocks when the source has nothing more to deliver.  It raises the
    exception of the [recv] that follows the chunks, or of the [sendall]
    of the last chunk, or of the shutdown on the empty string.  The
    shutdown is the last action and happens on the empty string only. *)
Theorem forward_never_sends_after_shutdown source destination :
  exists chunks rest,
    source = map Ok chunks ++ rest /\
    Forall (fun c => c <> "") chunks /\
    let (o, t) := Forwarder.forward source destination in
    match o with
    | Forwarder.Returned =>
        t = map Forwarder.SendAll chunks ++ [Forwarder.ShutdownWR] /\
        (exists rest', rest = Ok "" :: rest') /\
        Forwarder.shutdown destination = Ok tt
    | Forwarder.Blocked => t = map Forwarder.SendAll chunks /\ rest = []
    | Forwarder.Raised e =>
        (t = map Forwarder.SendAll chunks /\ exists rest', rest = Raise e :: rest') \/
        (t = map Forwarder.SendAll chunks /\
         exists pre c, chunks = pre ++ [c] /\
                       Forwarder.sendall destination (length pre) c = Raise e) \/
        (t = map Forwarder.SendAll chunks ++ [Forwarder.ShutdownWR] /\
         (exists rest', rest = Ok "" :: rest') /\
         Forwarder.shutdown destination = Raise e)
    end.
Proof. exact (forward_loop_spec source destination 0). Qed.

(** X14 at work on a stream of two chunks. *)
Lemma forward_relays_until_end_of_stream_witness :
  Forwarder.forward [Ok "GET "; Ok "/"; Ok ""; Ok "late"] Forwarder.accepting =
  (Forwarder.Returned,
   [Forwarder.SendAll "GET "; Forwarder.SendAll "/"; Forwarder.ShutdownWR]).
Proof.
  apply (forward_relays_until_end_of_stream ["GET "; "/"] [Ok "late"] Forwarder.accepting).
  - repeat constructor; discriminate.
  - intros n c. reflexivity.
  - reflexivity.
Defined.

(** * The antivirus addon *)

Lemma act_cases env file filename :
  let (r, t) := AntiVirus.act env file filename in
  Forall (fun ev => ev <> AntiVirus.AddActive /\ ev <> AntiVirus.FinishFile) t /\
  (forall f, In (AntiVirus.Remove f) t ->
             f = file /\ AntiVirus.action_cfg env = "Delete") /\
  (forall f d, In (AntiVirus.Move f d) t ->
               f = file /\ d = AntiVirus.quardir env /\
               AntiVirus.action_cfg env = "Quarantine") /\
  (forall e, r = AntiVirus.Fail e ->
     AntiVirus.caught e = false /\
     (AntiVirus.action_cfg env = "Delete" /\ AntiVirus.remove env file = AntiVirus.Fail e \/
      AntiVirus.action_cfg env = "Quarantine" /\
      AntiVirus.move env file (AntiVirus.quardir env) = AntiVirus.Fail e)) /\
  (forall e, AntiVirus.caught e = true ->
     AntiVirus.action_cfg env = "Delete" /\ AntiVirus.remove env file = AntiVirus.Fail e \/
     AntiVirus.action_cfg env = "Quarantine" /\
     AntiVirus.move env file (AntiVirus.quardir env) = AntiVirus.Fail e ->
     r = AntiVirus.Done tt /\
     In (AntiVirus.LogError filename
           (String.append (AntiVirus.action_cfg env) " action failed!") e) t).
Proof.
  unfold AntiVirus.act.
  destruct (bool_decide (AntiVirus.action_cfg env = "Delete")) eqn:Hd.
  - apply bool_decide_eq_true in Hd.
    destruct (AntiVirus.remove env file) as [[]|e0] eqn:Hr;
      [|destruct (AntiVirus.caught e0) eqn:Hc].
    + split; [repeat constructor; discriminate|].
      split; [intros f [H|[]]; injection H as <-; split; [reflexivity | exact Hd]|].
      split; [intros f d [H|[]]; discriminate H|].
      split; [intros e H; discriminate H|].
      intros e _ [[_ H]|[H _]]; [discriminate H | rewrite Hd in H; discriminate H].
    + split; [repeat constructor; discriminate|].
      split; [intros f [H|[H|[]]]; [injection H as <-; split; [reflexivity | exact Hd]
                                   | discriminate H]|].
      split; [intros f d [H|[H|[]]]; discriminate H|].
      split; [intros e H; discriminate H|].
      intros e _ [[_ H]|[H _]]; [|rewrite Hd in H; discriminate H].
      injection H as <-. split; [reflexivity|]. right. now left.
    + split; [repeat constructor; discriminate|].
      split; [intros f [H|[]]; injection H as <-; split; [reflexivity | exact Hd]|].
      split; [intros f d [H|[]]; discriminate H|].
      split.
      * intros e H. injection H as <-. split; [exact Hc|]. left. split; first [assumption | reflexivity].
      * intros e He [[_ H]|[H _]]; [|rewrite Hd in H; discriminate H].
        injection H as <-. congruence.
  - apply bool_decide_eq_false in Hd.
    destruct (bool_decide (AntiVirus.action_cfg env = "Quarantine")) eqn:Hq.
    + apply bool_decide_eq_true in Hq.
      destruct (AntiVirus.move env file (AntiVirus.quardir env)) as [[]|e0] eqn:Hr;
        [|destruct (AntiVirus.caught e0) eqn:Hc].
      * split; [repeat constructor; discriminate|].
        split; [intros f [H|[H|[H|[]]]]; discriminate H|].
        split; [intros f d [H|[H|[H|[]]]]; try discriminate H;
                injection H as <- <-; repeat split; exact Hq|].
        split; [intros e H; discriminate H|].
        intros e _ [[H _]|[_ H]]; [contradiction | discriminate H].
      * split; [repeat constructor; discriminate|].
        split; [intros f [H|[H|[H|[H|[]]]]]; discriminate H|].
        split; [intros f d [H|[H|[H|[H|[]]]]]; try discriminate H;
                injection H as <- <-; repeat split; exact Hq|].
        split; [intros e H; discriminate H|].
        intros e _ [[H _]|[_ H]]; [contradiction|].
        injection H as <-. split; [reflexivity|]. right. right. right. now left.
      * split; [repeat constructor; discriminate|].
        split; [intros f [H|[H|[H|[]]]]; discriminate H|].
        split; [intros f d [H|[H|[H|[]]]]; try discriminate H;
                injection H as <- <-; repeat split; exact Hq|].
        split.
        -- intros e H. injection H as <-. split; [exact Hc|]. right. split; first [assumption | reflexivity].
        -- intros e He [[H _]|[_ H]]; [contradiction|]. injection H as <-. congruence.
    + apply bool_decide_eq_false in Hq.
      split; [constructor|]. split; [intros f []|]. split; [intros f d []|].
      split; [intros e H; discriminate H|].
      intros e _ [[H _]|[H _]]; contradiction.
Qed.

(** What the scanner said, as [examine] reads it. *)
Lemma examine_cases env file filename cmdfile cmdargs :
  let (r, t) := AntiVirus.examine env file filename cmdfile cmdargs in
  let infected_run :=
    exists out err code,
      AntiVirus.communicate env [cmdfile; cmdargs; file] = AntiVirus.Done (out, err, code) /\
      code <> 0%Z /\ (bytes_strip err = "" \/ AntiVirus.ignore_err env = true) in
  Forall (fun ev => ev <> AntiVirus.AddActive /\ ev <> AntiVirus.FinishFile) t /\
  (forall f, In (AntiVirus.Remove f) t ->
     f = file /\ AntiVirus.action_cfg env = "Delete" /\ infected_run) /\
  (forall f d, In (AntiVirus.Move f d) t ->
     f = file /\ d = AntiVirus.quardir env /\
     AntiVirus.action_cfg env = "Quarantine" /\ infected_run) /\
  (forall e, r = AntiVirus.Fail e ->
     AntiVirus.communicate env [cmdfile; cmdargs; file] = AntiVirus.Fail e \/
     AntiVirus.caught e = false /\
     (AntiVirus.action_cfg env = "Delete" /\ AntiVirus.remove env file = AntiVirus.Fail e \/
      AntiVirus.action_cfg env = "Quarantine" /\
      AntiVirus.move env file (AntiVirus.quardir env) = AntiVirus.Fail e)).
Proof.
  unfold AntiVirus.examine.
  destruct (AntiVirus.communicate env [cmdfile; cmdargs; file])
    as [[[out err] code]|e0] eqn:Hcomm.
  2:{ split; [repeat constructor; discriminate|].
      split; [intros f [H|[]]; discriminate H|].
      split; [intros f d [H|[]]; discriminate H|].
      intros e H. injection H as <-. now left. }
  cbn zeta.
  set (pre := AntiVirus.Popen [cmdfile; cmdargs; file]
              :: (if truthy (VStr (bytes_strip out))
                  then [AntiVirus.LogInfo filename (bytes_strip out)] else [])
              ++ (if truthy (VStr (bytes_strip err))
                  then [AntiVirus.LogWarning filename (bytes_strip err)] else [])).
  assert (Hpre : Forall (fun ev => (ev <> AntiVirus.AddActive /\ ev <> AntiVirus.FinishFile) /\
                                   (forall f, ev <> AntiVirus.Remove f) /\
                                   (forall f d, ev <> AntiVirus.Move f d)) pre).
  { subst pre. destruct (truthy (VStr (bytes_strip out))), (truthy (VStr (bytes_strip err)));
      repeat constructor; discriminate. }
  assert (Hplain : forall t0,
            Forall (fun ev => (ev <> AntiVirus.AddActive /\ ev <> AntiVirus.FinishFile) /\
                              (forall f, ev <> AntiVirus.Remove f) /\
                              (forall f d, ev <> AntiVirus.Move f d)) t0 ->
            Forall (fun ev => ev <> AntiVirus.AddActive /\ ev <> AntiVirus.FinishFile) t0 /\
            (forall f, ~ In (AntiVirus.Remove f) t0) /\
            (forall f d, ~ In (AntiVirus.Move f d) t0)).
  { intros t0 H0. split; [eapply Forall_impl; [exact H0|]; intros ev H; apply H|].
    split; [intros f H | intros f d H];
      pose proof (proj1 (List.Forall_forall _ _) H0 _ H) as (_ & Hr & Hm);
      [apply (Hr f) | apply (Hm f d)]; reflexivity. }
  assert (Herr : truthy (VStr (bytes_strip err)) = false -> bytes_strip err = "").
  { cbn. destruct (String.eqb (bytes_strip err) "") eqn:He; [|discriminate].
    intros _. now apply String.eqb_eq. }
  destruct (truthy (VStr (bytes_strip err)) && negb (AntiVirus.ignore_err env)) eqn:Habort.
  { match goal with |- context [pre ++ ?x] =>
      assert (HF : Forall (fun ev => (ev <> AntiVirus.AddActive /\ ev <> AntiVirus.FinishFile) /\
                                     (forall f, ev <> AntiVirus.Remove f) /\
                                     (forall f d, ev <> AntiVirus.Move f d)) (pre ++ x))
        by (apply Forall_app; split; [exact Hpre|]; repeat constructor; discriminate)
    end.
    destruct (Hplain _ HF) as (H1 & H2 & H3);
      split; [exact H1|]; split; [intros f H; destruct (H2 f H)|];
      split; [intros f d H; destruct (H3 f d H) | intros e H; discriminate H]. }
  assert (Hmay : bytes_strip err = "" \/ AntiVirus.ignore_err env = true).
  { apply andb_false_iff in Habort as [H|H]; [left; now apply Herr|].
    right. now apply negb_false_iff in H. }
  destruct (negb (Z.eqb code 0)) eqn:Hcode.
  - pose proof (act_cases env file filename) as Hact.
    destruct (AntiVirus.act env file filename) as [r' t'].
    destruct Hact as (Hquiet & Hrem & Hmov & Hfail & _).
    destruct (Hplain pre Hpre) as (Hq & Hnr & Hnm).
    assert (Hnz : code <> 0%Z).
    { apply negb_true_iff in Hcode. now apply Z.eqb_neq. }
    assert (Hrun : exists out0 err0 code0,
               AntiVirus.Done (out, err, code) = AntiVirus.Done (out0, err0, code0) /\
               code0 <> 0%Z /\ (bytes_strip err0 = "" \/ AntiVirus.ignore_err env = true)).
    { exists out, err, code. split; [reflexivity|]. split; assumption. }
    split; [apply Forall_app; split; [exact Hq|]; constructor;
            [split; discriminate | exact Hquiet]|].
    split; [|split].
    + intros f H. apply in_app_or in H as [H|[H|H]];
        [destruct (Hnr f H) | discriminate H|].
      destruct (Hrem f H) as [-> Ha]. split; [reflexivity|]. split; assumption.
    + intros f d H. apply in_app_or in H as [H|[H|H]];
        [destruct (Hnm f d H) | discriminate H|].
      destruct (Hmov f d H) as (-> & -> & Ha). repeat split; assumption.
    + intros e H. right. apply (Hfail e H).
  - destruct (negb (truthy (VStr (bytes_strip out))) && negb (truthy (VStr (bytes_strip err)))).
    + match goal with |- context [pre ++ ?x] =>
        assert (HF : Forall (fun ev => (ev <> AntiVirus.AddActive /\ ev <> AntiVirus.FinishFile) /\
                                       (forall f, ev <> AntiVirus.Remove f) /\
                                       (forall f d, ev <> AntiVirus.Move f d)) (pre ++ x))
          by (apply Forall_app; split; [exact Hpre|]; repeat constructor; discriminate)
      end.
      destruct (Hplain _ HF) as (H1 & H2 & H3);
      split; [exact H1|]; split; [intros f H; destruct (H2 f H)|];
      split; [intros f d H; destruct (H3 f d H) | intros e H; discriminate H].
    + pose proof Hpre as HF.
      destruct (Hplain _ HF) as (H1 & H2 & H3);
      split; [exact H1|]; split; [intros f H; destruct (H2 f H)|];
      split; [intros f d H; destruct (H3 f d H) | intros e H; discriminate H].
Qed.

Lemma scan_run env :
  AntiVirus.scan env =
  if negb (AntiVirus.isfile env (AntiVirus.fs_encode env (AntiVirus.lastDownload env)))
     || negb (AntiVirus.isfile env (AntiVirus.fs_encode env (AntiVirus.cmdfile_cfg env)))
  then (AntiVirus.Done tt, [])
  else
    (fst (AntiVirus.examine env
            (AntiVirus.fs_encode env (AntiVirus.lastDownload env))
            (AntiVirus.basename env (AntiVirus.lastDownload env))
            (AntiVirus.fs_encode env (AntiVirus.cmdfile_cfg env))
            (AntiVirus.fs_encode env (bytes_strip (AntiVirus.cmdargs_cfg env)))),
     [AntiVirus.AddActive; AntiVirus.SetCustomStatus "virus scanning"]
     ++ snd (AntiVirus.examine env
               (AntiVirus.fs_encode env (AntiVirus.lastDownload env))
               (AntiVirus.basename env (AntiVirus.lastDownload env))
               (AntiVirus.fs_encode env (AntiVirus.cmdfile_cfg env))
               (AntiVirus.fs_encode env (bytes_strip (AntiVirus.cmdargs_cfg env))))
     ++ [AntiVirus.SetProgress 100; AntiVirus.FinishFile]).
Proof.
  unfold AntiVirus.scan. cbn zeta.
  destruct (negb _ || negb _); [reflexivity|].
  destruct (AntiVirus.examine _ _ _ _ _). reflexivity.
Qed.

(** X16.  [scan] does nothing at all when the downloaded file or the
    scanner executable is not a file.  Otherwise it registers the pyfile as
    active first and, whatever the scanner process and the file operations
    do (including raising), ends by setting the progress to 100 and
    releasing the pyfile with [finishFile], exactly once. *)
Theorem scan_always_finishes_the_file env :
  let file := AntiVirus.fs_encode env (AntiVirus.lastDownload env) in
  let cmdfile := AntiVirus.fs_encode env (AntiVirus.cmdfile_cfg env) in
  if AntiVirus.isfile env file && AntiVirus.isfile env cmdfile
  then exists mid,
         snd (AntiVirus.scan env) =
         [AntiVirus.AddActive; AntiVirus.SetCustomStatus "virus scanning"] ++ mid
         ++ [AntiVirus.SetProgress 100; AntiVirus.FinishFile] /\
         Forall (fun ev => ev <> AntiVirus.AddActive /\ ev <> AntiVirus.FinishFile) mid
  else AntiVirus.scan env = (AntiVirus.Done tt, []).
Proof.
  cbn zeta. rewrite scan_run.
  destruct (AntiVirus.isfile env (AntiVirus.fs_encode env (AntiVirus.lastDownload env)));
    [|reflexivity].
  destruct (AntiVirus.isfile env (AntiVirus.fs_encode env (AntiVirus.cmdfile_cfg env)));
    [|reflexivity].
  cbn [negb orb andb snd].
  pose proof (examine_cases env
                (AntiVirus.fs_encode env (AntiVirus.lastDownload env))
                (AntiVirus.basename env (AntiVirus.lastDownload env))
                (AntiVirus.fs_encode env (AntiVirus.cmdfile_cfg env))
                (AntiVirus.fs_encode env (bytes_strip (AntiVirus.cmdargs_cfg env)))) as H.
  destruct (AntiVirus.examine _ _ _ _ _) as [r t]. cbn zeta in H.
  destruct H as (Hq & _). exists t. split; [reflexivity | exact Hq].
Qed.

(** X17.  The addon removes or moves nothing but the downloaded file, and
    only after the scanner process ran and exited with a non-zero code
    while its error output was empty or [ignore-err] is set; a move goes
    to the quarantine folder.  Through [downloadFailed] this happens only
    for a pyfile of status 8 with [scanfailed] set. *)
Theorem antivirus_acts_only_on_infected_files env f :
  let file := AntiVirus.fs_encode env (AntiVirus.lastDownload env) in
  let argv := [AntiVirus.fs_encode env (AntiVirus.cmdfile_cfg env);
               AntiVirus.fs_encode env (bytes_strip (AntiVirus.cmdargs_cfg env)); file] in
  let infected_run :=
    f = file /\
    exists out err code,
      AntiVirus.communicate env argv = AntiVirus.Done (out, err, code) /\
      code <> 0%Z /\ (bytes_strip err = "" \/ AntiVirus.ignore_err env = true) in
  (forall t, t = snd (AntiVirus.downloadFinished env) ->
     (In (AntiVirus.Remove f) t -> infected_run /\ AntiVirus.action_cfg env = "Delete") /\
     (forall d, In (AntiVirus.Move f d) t ->
        infected_run /\ AntiVirus.action_cfg env = "Quarantine" /\
        d = AntiVirus.quardir env)) /\
  (In (AntiVirus.Remove f) (snd (AntiVirus.downloadFailed env)) \/
   (exists d, In (AntiVirus.Move f d) (snd (AntiVirus.downloadFailed env))) ->
   AntiVirus.status env = 8%Z /\ AntiVirus.scanfailed env = true /\ infected_run).
Proof.
  cbn zeta.
  pose proof (examine_cases env
                (AntiVirus.fs_encode env (AntiVirus.lastDownload env))
                (AntiVirus.basename env (AntiVirus.lastDownload env))
                (AntiVirus.fs_encode env (AntiVirus.cmdfile_cfg env))
                (AntiVirus.fs_encode env (bytes_strip (AntiVirus.cmdargs_cfg env)))) as Hex.
  assert (Hscan : forall ev,
             In ev (snd (AntiVirus.scan env)) ->
             (forall g, ev <> AntiVirus.Remove g) /\ (forall g d, ev <> AntiVirus.Move g d) \/
             In ev (snd (AntiVirus.examine env
                           (AntiVirus.fs_encode env (AntiVirus.lastDownload env))
                           (AntiVirus.basename env (AntiVirus.lastDownload env))
                           (AntiVirus.fs_encode env (AntiVirus.cmdfile_cfg env))
                           (AntiVirus.fs_encode env (bytes_strip (AntiVirus.cmdargs_cfg env)))))).
  { intros ev. rewrite scan_run. destruct (negb _ || negb _); [intros []|].
    cbn [snd]. intros H. apply in_app_or in H as [H|H].
    - left. destruct H as [<-|[<-|[]]]; split; discriminate.
    - apply in_app_or in H as [H|H]; [now right|].
      left. destruct H as [<-|[<-|[]]]; split; discriminate. }
  destruct (AntiVirus.examine _ _ _ _ _) as [r t].
  cbn zeta in Hex. destruct Hex as (_ & Hrem & Hmov & _). cbn [snd] in Hscan.
  assert (Hfinished :
            (In (AntiVirus.Remove f) (snd (AntiVirus.scan env)) ->
             (f = AntiVirus.fs_encode env (AntiVirus.lastDownload env) /\
              exists out err code,
                AntiVirus.communicate env
                  [AntiVirus.fs_encode env (AntiVirus.cmdfile_cfg env);
                   AntiVirus.fs_encode env (bytes_strip (AntiVirus.cmdargs_cfg env));
                   AntiVirus.fs_encode env (AntiVirus.lastDownload env)] =
                AntiVirus.Done (out, err, code) /\
                code <> 0%Z /\ (bytes_strip err = "" \/ AntiVirus.ignore_err env = true)) /\
             AntiVirus.action_cfg env = "Delete") /\
            (forall d, In (AntiVirus.Move f d) (snd (AntiVirus.scan env)) ->
             (f = AntiVirus.fs_encode env (AntiVirus.lastDownload env) /\
              exists out err code,
                AntiVirus.communicate env
                  [AntiVirus.fs_encode env (AntiVirus.cmdfile_cfg env);
                   AntiVirus.fs_encode env (bytes_strip (AntiVirus.cmdargs_cfg env));
                   AntiVirus.fs_encode env (AntiVirus.lastDownload env)] =
                AntiVirus.Done (out, err, code) /\
                code <> 0%Z /\ (bytes_strip err = "" \/ AntiVirus.ignore_err env = true)) /\
             AntiVirus.action_cfg env = "Quarantine" /\ d = AntiVirus.quardir env)).
  { split.
    - intros H. destruct (Hscan _ H) as [[Hr _]|H']; [destruct (Hr f eq_refl)|].
      destruct (Hrem f H') as (Hf & Ha & Hrun). repeat split; assumption.
    - intros d H. destruct (Hscan _ H) as [[_ Hm]|H']; [destruct (Hm f d eq_refl)|].
      destruct (Hmov f d H') as (Hf & Hd & Ha & Hrun). repeat split; assumption. }
  split.
  - intros t0 ->. exact Hfinished.
  - unfold AntiVirus.downloadFailed.
    destruct (Z.eqb (AntiVirus.status env) 8) eqn:Hst;
      [|intros [[]|[d []]]].
    destruct (AntiVirus.scanfailed env) eqn:Hsf; [|intros [[]|[d []]]].
    cbn [andb]. intros H. apply Z.eqb_eq in Hst.
    split; [exact Hst|]. split; [reflexivity|].
    destruct H as [H|[d H]]; [apply (proj1 Hfinished H) | apply (proj2 Hfinished d H)].
Qed.

(** X18.  [scan] raises only what the scanner process raises, or what the
    removal or the move of an infected file raises other than [IOError]
    and [shutil.Error].  A removal or move that fails with one of these
    two is contained: [scan] logs the error with the file name and the
    action and returns normally. *)
Theorem scan_contains_action_failures env :
  let file := AntiVirus.fs_encode env (AntiVirus.lastDownload env) in
  let filename := AntiVirus.basename env (AntiVirus.lastDownload env) in
  let argv := [AntiVirus.fs_encode env (AntiVirus.cmdfile_cfg env);
               AntiVirus.fs_encode env (bytes_strip (AntiVirus.cmdargs_cfg env)); file] in
  let action_fails e :=
    AntiVirus.action_cfg env = "Delete" /\ AntiVirus.remove env file = AntiVirus.Fail e \/
    AntiVirus.action_cfg env = "Quarantine" /\
    AntiVirus.move env file (AntiVirus.quardir env) = AntiVirus.Fail e in
  (forall e, fst (AntiVirus.scan env) = AntiVirus.Fail e ->
     AntiVirus.communicate env argv = AntiVirus.Fail e \/
     AntiVirus.caught e = false /\ action_fails e) /\
  (forall e out err code,
     AntiVirus.isfile env file = true ->
     AntiVirus.isfile env (AntiVirus.fs_encode env (AntiVirus.cmdfile_cfg env)) = true ->
     AntiVirus.communicate env argv = AntiVirus.Done (out, err, code) ->
     code <> 0%Z ->
     bytes_strip err = "" \/ AntiVirus.ignore_err env = true ->
     AntiVirus.caught e = true ->
     action_fails e ->
     fst (AntiVirus.scan env) = AntiVirus.Done tt /\
     In (AntiVirus.LogError filename
           (String.append (AntiVirus.action_cfg env) " action failed!") e)
        (snd (AntiVirus.scan env))).
Proof.
  cbn zeta. split.
  - intros e. rewrite scan_run. destruct (negb _ || negb _); [discriminate|].
    cbn [fst].
    pose proof (examine_cases env
                  (AntiVirus.fs_encode env (AntiVirus.lastDownload env))
                  (AntiVirus.basename env (AntiVirus.lastDownload env))
                  (AntiVirus.fs_encode env (AntiVirus.cmdfile_cfg env))
                  (AntiVirus.fs_encode env (bytes_strip (AntiVirus.cmdargs_cfg env)))) as Hex.
    destruct (AntiVirus.examine _ _ _ _ _) as [r t]. cbn zeta in Hex.
    destruct Hex as (_ & _ & _ & Hfail). cbn [fst]. apply Hfail.
  - intros e out err code Hf Hc Hcomm Hcode Herr Hcaught Hact.
    rewrite scan_run, Hf, Hc. cbn [negb orb fst snd].
    unfold AntiVirus.examine. rewrite Hcomm. cbn zeta.
    assert (Habort : truthy (VStr (bytes_strip err)) && negb (AntiVirus.ignore_err env) = false).
    { destruct Herr as [-> | ->]; [reflexivity | apply andb_false_r]. }
    rewrite Habort.
    assert (Hnz : negb (Z.eqb code 0) = true).
    { apply negb_true_iff. now apply Z.eqb_neq. }
    rewrite Hnz.
    pose proof (act_cases env (AntiVirus.fs_encode env (AntiVirus.lastDownload env))
                  (AntiVirus.basename env (AntiVirus.lastDownload env))) as Ha.
    destruct (AntiVirus.act env _ _) as [r' t'].
    destruct Ha as (_ & _ & _ & _ & Hlog).
    destruct (Hlog e Hcaught Hact) as [-> Hin]. cbn [fst snd].
    split; [reflexivity|].
    apply in_or_app. right. apply in_or_app. left. apply in_or_app. right.
    right. exact Hin.
Qed.

(** * The further properties on concrete managers and hosts *)

Lemma index_ok_single p : index_ok (manager_of [p]).
Proof.
  split; [apply NoDup_singleton|]. split; [apply NoDup_singleton|].
  intros name q. cbn [manager_of pluginMap plugins map list_to_map].
  unfold list_to_map. cbn [foldr uncurry fst snd].
  rewrite lookup_insert_Some, lookup_empty. split.
  - intros [[<- <-]|[_ H]]; [|discriminate H]. split; [now left | reflexivity].
  - intros [[<-|[]] <-]. left. split; reflexivity.
Qed.

(** The amended C2 at work: [Foo] leaves the index and its entry stays in
    the table. *)
Lemma rpc_table_survives_deactivation_witness :
  let self := set_methods {[ "Foo" := {[ "bar" := "adds two numbers" ]} ]}
                          (manager_of [Foo]) in
  let r := deactivateAddon "Foo" self in
  ~ In "Foo" (index_names (st r)) /\
  pluginMap (st r) !! "Foo" = None /\
  methods (st r) !! "Foo" = Some {[ "bar" := "adds two numbers" ]}.
Proof.
  intros self r.
  destruct (rpc_table_survives_deactivation [] "Foo" self) as (_ & _ & H).
  destruct H as (Hgone & Hmap & Hkept).
  - exact (index_ok_single Foo).
  - vm_compute. reflexivity.
  - split; [exact Hgone|]. split; [exact Hmap|].
    fold r in Hkept. rewrite Hkept. vm_compute. reflexivity.
Defined.

Lemma index_ok_empty : index_ok (mkAddonManager core [] ∅ ∅ ∅).
Proof.
  split; [constructor|]. split; [constructor|].
  intros name q. cbn [pluginMap plugins]. rewrite lookup_empty.
  split; [discriminate | intros [[] _]].
Qed.

Lemma loads_Foo_coherently : loads_coherently (mkAddonManager core [] ∅ ∅ ∅) "Foo".
Proof.
  intros cls p Hc Hp. vm_compute in Hc. injection Hc as <-.
  cbn in Hp. injection Hp as <-. repeat split. intros [].
Qed.

(** X1 at work: [Foo] leaves a well-formed index. *)
Lemma deactivateAddon_keeps_index_ok_witness :
  index_ok (manager_of [Foo]) /\
  index_ok (st (deactivateAddon "Foo" (manager_of [Foo]))) /\
  ~ In "Foo" (index_names (st (deactivateAddon "Foo" (manager_of [Foo])))).
Proof.
  pose proof (index_ok_single Foo) as Hok.
  destruct (deactivateAddon_keeps_index_ok "Foo" (manager_of [Foo]) Hok)
    as (Hinv & _ & Hgone).
  split; [exact Hok|]. split; [exact Hinv|].
  apply Hgone. vm_compute. reflexivity.
Defined.

(** X2 at work: [Foo] enters an empty index, and a second activation
    changes nothing. *)
Lemma activateAddon_keeps_index_ok_witness :
  let s0 := mkAddonManager core [] ∅ ∅ ∅ in
  plugins (st (activateAddon "Foo" s0)) = [Foo] /\
  index_ok (st (activateAddon "Foo" s0)) /\
  activateAddon "Foo" (manager_of [Foo]) = mkRun (Ok tt) (manager_of [Foo]) [].
Proof.
  intros s0.
  destruct (activateAddon_keeps_index_ok "Foo" s0) as [_ H].
  destruct (H index_ok_empty loads_Foo_coherently) as [Hinv Hnew].
  destruct (Hnew (mkPluginClass "Foo" (Ok Foo)) Foo) as (_ & Hpl & _);
    [intros [] | reflexivity | reflexivity |].
  split; [exact Hpl|]. split; [exact Hinv|].
  destruct (activateAddon_keeps_index_ok "Foo" (manager_of [Foo])) as [Hnoop _].
  apply Hnoop. now left.
Defined.

(** X3 at work on an empty index. *)
Lemma activate_then_deactivate_witness :
  let s0 := mkAddonManager core [] ∅ ∅ ∅ in
  let r := deactivateAddon "Foo" (st (activateAddon "Foo" s0)) in
  out r = Ok tt /\ plugins (st r) = [] /\ pluginMap (st r) = ∅.
Proof.
  intros s0.
  refine (activate_then_deactivate "Foo" s0 (mkPluginClass "Foo" (Ok Foo)) Foo
            index_ok_empty _ loads_Foo_coherently _ _ _).
  - intros [].
  - reflexivity.
  - reflexivity.
  - reflexivity.
Defined.

(** X4 at work on a fresh manager: the change activates [Foo]. *)
Lemma config_change_drives_activation_witness :
  let self := st (__init__ core) in
  let r := dispatchEvent call_external "pluginConfigChanged"
             [VStr "Foo"; VStr "activated"; VBool true] self in
  out r = Ok tt /\ st r = st (activateAddon "Foo" self) /\
  In "Foo" (index_names (st r)).
Proof.
  intros self r.
  assert (Hev : events self !! "pluginConfigChanged" = Some [BoundManageAddons]).
  { vm_compute. reflexivity. }
  destruct (config_change_drives_activation call_external self "Foo"
              (VStr "activated") (VBool true) Hev) as (Ho & _ & Hact).
  destruct (Hact eq_refl) as [Hst _].
  split; [exact Ho|]. split; [exact Hst|].
  fold r in Hst. rewrite Hst. vm_compute. right. now left.
Defined.

(** X5 at work: [Bad.coreReady] raises after [Good] returned. *)
Lemma guarded_dispatchers_contain_failures_witness :
  out (dispatcher call_external Hook.coreReady VNone (manager_of [Good; Bad])) = Ok tt /\
  st (dispatcher call_external Hook.coreReady VNone (manager_of [Good; Bad]))
  = manager_of [Good; Bad].
Proof.
  destruct (guarded_dispatchers_contain_failures call_external (manager_of [Good; Bad])
              Hook.coreReady VNone [Good] Bad [] (Exception "hook failed"))
    as (Hout & Hst & _).
  - now left.
  - reflexivity.
  - repeat constructor.
  - reflexivity.
  - intros H. discriminate H.
  - reflexivity.
  - split; [apply Hout | exact Hst].
Defined.

(** X6 at work: [Sleepy] is skipped, [Good] and [Foo] are called in
    order. *)
Lemma dispatcher_visits_in_index_order_witness :
  tr (dispatcher call_external Hook.downloadFinished pyfile (manager_of [Good; Sleepy; Foo]))
  = [Acquire; Invoke Good Hook.downloadFinished [pyfile];
     Invoke Foo Hook.downloadFinished [pyfile]; Release].
Proof.
  destruct (dispatcher_visits_in_index_order call_external (manager_of [Good; Sleepy; Foo])
              Hook.downloadFinished pyfile) as (_ & _ & Ht).
  - right. now left.
  - intros q Hq _ _. destruct Hq as [<-|[<-|[<-|[]]]]; reflexivity.
  - rewrite Ht. vm_compute. reflexivity.
Defined.

(** X7 at work on a dotted module path, with a description that starts
    with a no-break space (code point 160) and ends with a unit separator
    (code point 31) and a line feed. *)
Lemma addRPC_registers_under_short_name_witness :
  let doc := String (ascii_of_nat 160)
               (String.append " adds " (String (ascii_of_nat 31) (String (ascii_of_nat 10) ""))) in
  exists table,
    methods (st (addRPC "pyload.plugin.addon.Foo" "bar" (Some doc)
                   (mkAddonManager core [] ∅ ∅ ∅))) !! "Foo" = Some table /\
    table !! "bar" = Some "adds".
Proof.
  intros doc.
  destruct (addRPC_registers_under_short_name "pyload.plugin.addon.Foo" "Foo" "bar"
              (Some doc) (mkAddonManager core [] ∅ ∅ ∅))
    as (_ & _ & _ & _ & _ & (table & Ht & Hf & _) & _).
  - reflexivity.
  - right. exists "pyload.plugin.addon". reflexivity.
  - exists table. split; [exact Ht | exact Hf].
Defined.

(** X10 at work: [Foo] is deactivated, then called. *)
Lemma deactivated_plugin_not_callable_witness :
  out (callRPC literal_eval "Foo" "bar" [VInt 1; VInt 2] false
         (st (deactivateAddon "Foo" (manager_of [Foo]))))
  = Raise (KeyError "Foo").
Proof.
  destruct (deactivated_plugin_not_callable literal_eval "Foo" (manager_of [Foo]) "bar"
              [VInt 1; VInt 2] (index_ok_single Foo)) as [H _].
  - vm_compute. reflexivity.
  - rewrite H. reflexivity.
Defined.

(** X11 at work on a manager without listeners. *)
Lemma addEvent_then_removeEvent_witness :
  let self := mkAddonManager core [] ∅ ∅ ∅ in
  let r := removeEvent "E" (External 2) (st (addEvent "E" (External 2) self)) in
  out r = Ok tt /\ events (st r) !! "E" = Some [].
Proof.
  intros self r.
  destruct (addEvent_then_removeEvent call_external "E" (External 2) self)
    as (Ho & _ & Hev & _).
  - intros l H. cbn [events self] in H. rewrite lookup_empty in H. discriminate H.
  - split; [exact Ho | exact Hev].
Defined.

(** X12 at work: the only listener is removed. *)
Lemma removeEvent_stops_delivery_witness :
  let self := st (addEvent "E" (External 2) (mkAddonManager core [] ∅ ∅ ∅)) in
  events_nodup self /\
  count_calls (External 2)
    (tr (dispatchEvent call_external "E" [pyfile]
           (st (removeEvent "E" (External 2) self)))) = 0.
Proof.
  intros self.
  assert (Hnd : events_nodup self).
  { apply events_nodup_addEvent. intros event l H. cbn [events] in H.
    rewrite lookup_empty in H. discriminate H. }
  destruct (removeEvent_stops_delivery call_external "E" (External 2) self [pyfile] Hnd)
    as (_ & Hcount & _).
  split; [exact Hnd | exact Hcount].
Defined.

(** X13 at work: the second listener is called after the first. *)
Lemma new_listener_is_called_last_witness :
  let self := st (addEvent "E" (External 1) (mkAddonManager core [] ∅ ∅ ∅)) in
  listener_calls
    (tr (dispatchEvent call_external "E" [pyfile] (st (addEvent "E" (External 2) self))))
  = [(External 1, [pyfile]); (External 2, [pyfile])].
Proof.
  intros self.
  rewrite (new_listener_is_called_last call_external "E" (External 2) self [pyfile]).
  - vm_compute. reflexivity.
  - intros l H. vm_compute in H. injection H as <-.
    intros [H|[]]. discriminate H.
Defined.

(** X17 at work: the infected file is removed; on the host whose scanner
    writes the byte 28 to its error output, that output is not empty after
    stripping and nothing is removed. *)
Lemma antivirus_acts_only_on_infected_files_witness :
  (In (AntiVirus.Remove "/downloads/a.bin")
      (snd (AntiVirus.downloadFinished AntiVirus.infected)) /\
   AntiVirus.action_cfg AntiVirus.infected = "Delete" /\
   exists out err code,
     AntiVirus.communicate AntiVirus.infected
       ["/usr/bin/scanner"; "-q"; "/downloads/a.bin"] = AntiVirus.Done (out, err, code) /\
     code <> 0%Z) /\
  ~ In (AntiVirus.Remove "/downloads/a.bin")
       (snd (AntiVirus.downloadFinished AntiVirus.noisy)).
Proof.
  split.
  - assert (Hin : In (AntiVirus.Remove "/downloads/a.bin")
                     (snd (AntiVirus.downloadFinished AntiVirus.infected))).
    { vm_compute. do 5 right. now left. }
    destruct (antivirus_acts_only_on_infected_files AntiVirus.infected "/downloads/a.bin")
      as [Hfin _].
    destruct (Hfin _ eq_refl) as [Hrem _].
    destruct (Hrem Hin) as ((_ & out & err & code & Hc & Hnz & _) & Ha).
    split; [exact Hin|]. split; [exact Ha|].
    exists out, err, code. split; [exact Hc | exact Hnz].
  - intros Hin.
    destruct (antivirus_acts_only_on_infected_files AntiVirus.noisy "/downloads/a.bin")
      as [Hfin _].
    destruct (Hfin _ eq_refl) as [Hrem _].
    destruct (Hrem Hin) as ((_ & out & err & code & Hc & _ & Herr) & _).
    vm_compute in Hc. injection Hc as <- <- <-.
    destruct Herr as [H|H]; vm_compute in H; discriminate H.
Defined.

(** X18 at work: the removal fails with an [IOError], which is logged
    under the base name of the file. *)
Lemma scan_contains_action_failures_witness :
  fst (AntiVirus.scan AntiVirus.locked) = AntiVirus.Done tt /\
  In (AntiVirus.LogError "a.bin" "Delete action failed!" (AntiVirus.IOError "busy"))
     (snd (AntiVirus.scan AntiVirus.locked)).
Proof.
  destruct (scan_contains_action_failures AntiVirus.locked) as [_ H].
  apply (H (AntiVirus.IOError "busy") "FOUND" "" 1%Z); try reflexivity.
  - discriminate.
  - now left.
  - left. split; reflexivity.
Defined.

(** X8 at work: the info of [Sleepy]. *)
Lemma getInfo_is_entry_of_getAllInfo_witness :
  getInfo py_str "Sleepy" (manager_of [Sleepy]) = {[ "state" := "3" ]} /\
  getAllInfo py_str (manager_of [Sleepy]) !! "Sleepy" = Some {[ "state" := "3" ]}.
Proof.
  destruct (getInfo_is_entry_of_getAllInfo py_str (manager_of [Sleepy]) "Sleepy")
    as (Hget & Hall & _).
  assert (Hentry : getAllInfo py_str (manager_of [Sleepy]) !! "Sleepy" =
                   Some {[ "state" := "3" ]}).
  { apply Hall. exists Sleepy. split; [reflexivity|]. split.
    - intros Habs. apply (f_equal (fun m => m !! "state")) in Habs.
      vm_compute in Habs. discriminate Habs.
    - vm_compute. reflexivity. }
  split; [|exact Hentry]. rewrite Hget, Hentry. reflexivity.
Defined.

(** X9 at work: of the two known plugins only [Sleepy] is configured
    active. *)
Lemma createIndex_never_raises_witness :
  let r := createIndex (mkAddonManager core [Foo] ∅ ∅ ∅) in
  out r = Ok tt /\ In Sleepy (plugins (st r)) /\ ~ In Foo (plugins (st r)).
Proof.
  intros r.
  destruct (createIndex_never_raises (mkAddonManager core [Foo] ∅ ∅ ∅))
    as (Ho & Hmem).
  fold r in Ho, Hmem. split; [exact Ho|]. split.
  - apply Hmem. exists "Sleepy", (mkPluginClass "Sleepy" (Ok Sleepy)).
    split; [right; now left|].
    split; [exists (VBool true); split; reflexivity|]. split; reflexivity.
  - intros Hin. apply Hmem in Hin as (n & c & Hn & ([v [Hv Ht]] & Hc & Hp)).
    destruct Hn as [<-|[<-|[]]].
    + vm_compute in Hv. injection Hv as <-. discriminate Ht.
    + vm_compute in Hc. injection Hc as <-. cbn in Hp. discriminate Hp.
Defined.
